(** * Battle engine of the Mastodon bot: model and verified properties

    Shallow embedding of the combat state machine ([Battle]) and of the
    registry of live battles ([BattleManager]) of the single-file bot
    (sections 0, 2, 3 and 4 of the source).

    Modelling conventions.
    - JavaScript numbers that hold character statistics are integers ([Z]);
      probabilities, thresholds and the values returned by [Math.random] are
      rationals ([Q]): the rounding of IEEE doubles is not modelled.
    - [Math.random] is an explicit random source: an infinite sequence of
      draws together with the number of draws consumed so far.
    - A JavaScript object used as a dictionary ([this.actions]) and the two
      [Map]s of the manager are finite maps keyed by strings.  Identities are
      account names; they are assumed not to collide with inherited property
      names of a JavaScript object.  Strings are compared byte by byte, which
      is the order of the default [sort] on account names.
    - The two combatants of a battle are objects referenced both from
      [playerA]/[playerB] and from [turnOrder]; the turn order is therefore a
      pair of references ([PlayerA]/[PlayerB]) into the battle, not a pair of
      copies.  The two combatants handed to a battle are distinct, fresh
      objects, as [buildCharacterFromAcct] makes them: no combatant is shared
      between the two sides or between two battles.
    - A [Battle] is registered under one key and mutated in place by
      [submitAction]; the model writes the mutated battle back under that key.
    - The reply text is kept by structure: every template literal of the
      source is a constructor that carries the values it interpolates.
    - A [TypeError] raised by dereferencing [null] is the completion [Throw];
      mutations made before the exception stay in the returned state. *)

From Stdlib Require Import ZArith QArith Qminmax String Lia.
From Stdlib Require Import Qround Ascii.
From stdpp Require Import base option list gmap strings fin_maps.

Local Open Scope string_scope.
Local Open Scope Z_scope.
Local Open Scope list_scope.

#[local] Set Warnings "-clear-no-such-hyp".

(** ** 0. Constants *)

Definition ACTION_ATTACK : string := "attack".
Definition ACTION_DEFEND : string := "defend".
Definition ACTION_EVADE : string := "evade".

(** [Object.values(ACTION)] *)
Definition ACTION_values : list string :=
  [ACTION_ATTACK; ACTION_DEFEND; ACTION_EVADE].

(** [Object.values(ACTION).includes(action)] *)
Definition valid_action (action : string) : bool :=
  bool_decide (action ∈ ACTION_values).

(** ** Random source *)

Record RNG := { draws : nat -> Q; used : nat }.

(** [Math.random()] : the next draw, and the source advanced by one. *)
Definition Math_random (r : RNG) : Q * RNG :=
  (draws r (used r), {| draws := draws r; used := S (used r) |}).

(** [x < p] on numbers. *)
Definition lt_num (x p : Q) : bool := negb (Qle_bool p x).

(** [Math.max(lo, Math.min(hi, x))] *)
Definition clamp (lo hi x : Q) : Q := Qmax lo (Qmin hi x).

(** ** 1. Characters *)

Record Combatant := {
  id : string;
  name : string;
  maxHp : Z;
  hp : Z;
  atk : Z;
  def : Z;
  agi : Z;
  speed : Z;
  crit : option Q      (* [undefined] is [None]; read through [?? 0] *)
}.

Definition set_hp (c : Combatant) (h : Z) : Combatant :=
  {| id := id c; name := name c; maxHp := maxHp c; hp := h; atk := atk c;
     def := def c; agi := agi c; speed := speed c; crit := crit c |}.

(** ** 2. Utilities *)

(** [[acctA, acctB].sort().join('__')] : the default sort orders strings by
    code units; a two-element array is swapped exactly when the second is
    strictly below the first. *)
Definition makeBattleId (acctA acctB : string) : string :=
  if String.ltb acctB acctA
  then acctB +:+ "__" +:+ acctA
  else acctA +:+ "__" +:+ acctB.

(** ** 3. Combat mathematics *)

(** [isAttackHit] : base 80% plus 0.5% per point of agility difference. *)
Definition hitChance (attacker defender : Combatant) : Q :=
  clamp (1 # 10) (19 # 20)
        ((4 # 5) + inject_Z (agi attacker - agi defender) * (1 # 200))%Q.

Definition isAttackHit (attacker defender : Combatant) (r : RNG) : bool * RNG :=
  let hit := hitChance attacker defender in
  let '(d, r1) := Math_random r in
  (lt_num d hit, r1).

Definition evadeChance (defender : Combatant) : Q :=
  clamp (1 # 20) (3 # 5) (inject_Z (agi defender) / 100)%Q.

Definition tryEvade (defender : Combatant) (r : RNG) : bool * RNG :=
  let chance := evadeChance defender in
  let '(d, r1) := Math_random r in
  (lt_num d chance, r1).

Definition defendChance (defender : Combatant) : Q :=
  clamp (1 # 20) (3 # 5) (inject_Z (def defender) / 100)%Q.

Definition tryDefend (defender : Combatant) (r : RNG) : bool * RNG :=
  let chance := defendChance defender in
  let '(d, r1) := Math_random r in
  (lt_num d chance, r1).

(** The object returned by [calcDamage]: [crit] is [true] or absent, and
    [defended] is [true], [false] or [undefined]. *)
Record Damage := { dmg : Z; crit_hit : bool; defended : option bool }.

(** [attacker.crit ?? 0] *)
Definition critProbability (attacker : Combatant) : Q :=
  default 0%Q (crit attacker).

(** [Math.floor(dmg * 1.5)] on an integer. *)
Definition floor_times_1_5 (d : Z) : Z := (d * 3) / 2.

Definition calcDamage (attacker defender : Combatant)
    (defenderAction : option string) (r : RNG) : Damage * RNG :=
  let d0 := atk attacker in
  let '(x, r1) := Math_random r in
  if lt_num x (critProbability attacker) then
    let d1 := floor_times_1_5 d0 in
    let d2 := Z.max 0 d1 in
    ({| dmg := d2; crit_hit := true; defended := None |}, r1)
  else if bool_decide (defenderAction = Some ACTION_DEFEND) then
    let '(ok, r2) := tryDefend defender r1 in
    if ok then
      ({| dmg := Z.max 0 (d0 - def defender); crit_hit := false;
          defended := Some true |}, r2)
    else
      ({| dmg := d0; crit_hit := false; defended := Some false |}, r2)
  else
    ({| dmg := d0; crit_hit := false; defended := None |}, r1).

(** ** 4. Reply text, by structure *)

(** [actionKo] : the Korean word for an action, or "undecided". *)
Inductive action_ko := KoAttack | KoDefend | KoEvade | KoUndecided.

(** [statusLine] : name, hp and maxHp of both sides (the hp bar is a function
    of hp and maxHp). *)
Record status := {
  st_nameA : string; st_hpA : Z; st_maxHpA : Z;
  st_nameB : string; st_hpB : Z; st_maxHpB : Z
}.

(** [finishMessage] *)
Inductive finish_message :=
| FinishDraw (s : status)
| FinishWinner (winner loser : string) (s : status).

(** One pushed log line of a round. *)
Inductive log_line :=
| LineRound (n : Z)
| LineDeclared (nameA : string) (a : action_ko) (nameB : string) (b : action_ko)
| LineBlank
| LineDefendReady (who : string)
| LineEvadeReady (who : string)
| LineEvadeSuccess (defender attacker : string)
| LineEvadeFail (defender : string)
| LineMiss (attacker : string)
| LineAttack (attacker defender : string) (d : Z) (crit_tail : bool)
             (defend_tail : option bool)
| LineNothing (attacker : string)
| LineFinish (m : finish_message)
| LineStatus (s : status)
| LinePrompt.

Inductive reply :=
| MsgAlreadyFinished                (* setAction on a finished battle *)
| MsgNotParticipant                 (* setAction by a stranger *)
| MsgInvalidAction                  (* setAction with an unknown action *)
| MsgBothChosen                     (* the "odd" waiting message *)
| MsgWaiting                        (* waiting for the opponent *)
| MsgRound (log : list log_line)    (* the joined log of a resolved round *)
| MsgAlreadyInProgress              (* startBattle, key taken *)
| MsgSomeoneBusy                    (* startBattle, a side is busy *)
| MsgIntro (nameA nameB first : string) (s : status)
| MsgNotInBattle.                   (* submitAction outside a battle *)

Inductive completion (A : Type) :=
| Return (a : A)
| Throw.
Arguments Return {A} a.
Arguments Throw {A}.

(** ** 5. Battle *)

Inductive pref := PlayerA | PlayerB.

Record Battle := {
  playerA : Combatant;
  playerB : Combatant;
  turnOrder : pref * pref;
  actions : gmap string (option string);   (* [null] is [None] *)
  round : Z;
  isFinished : bool;
  winnerId : option string
}.

Definition player (b : Battle) (p : pref) : Combatant :=
  match p with PlayerA => playerA b | PlayerB => playerB b end.

(** [p.hp = h] through the reference [p]. *)
Definition write_hp (b : Battle) (p : pref) (h : Z) : Battle :=
  {| playerA := match p with PlayerA => set_hp (playerA b) h | PlayerB => playerA b end;
     playerB := match p with PlayerA => playerB b | PlayerB => set_hp (playerB b) h end;
     turnOrder := turnOrder b; actions := actions b; round := round b;
     isFinished := isFinished b; winnerId := winnerId b |}.

Definition write_actions (b : Battle) (a : gmap string (option string)) : Battle :=
  {| playerA := playerA b; playerB := playerB b; turnOrder := turnOrder b;
     actions := a; round := round b; isFinished := isFinished b;
     winnerId := winnerId b |}.

Definition write_round (b : Battle) (n : Z) : Battle :=
  {| playerA := playerA b; playerB := playerB b; turnOrder := turnOrder b;
     actions := actions b; round := n; isFinished := isFinished b;
     winnerId := winnerId b |}.

Definition write_outcome (b : Battle) (w : option string) : Battle :=
  {| playerA := playerA b; playerB := playerB b; turnOrder := turnOrder b;
     actions := actions b; round := round b; isFinished := true;
     winnerId := w |}.

(** [this.actions[k]] as an rvalue: a missing key reads [undefined], which
    every use in the source treats like [null]. *)
Definition slot (b : Battle) (k : string) : option string :=
  mjoin (actions b !! k).

Definition decideOrder (a b : Combatant) (r : RNG) : (pref * pref) * RNG :=
  if speed a >? speed b then ((PlayerA, PlayerB), r)
  else if speed b >? speed a then ((PlayerB, PlayerA), r)
  else
    let '(d, r1) := Math_random r in
    (if lt_num d (1 # 2) then (PlayerA, PlayerB) else (PlayerB, PlayerA), r1).

(** [new Battle(playerA, playerB)] *)
Definition Battle_new (a b : Combatant) (r : RNG) : Battle * RNG :=
  let '(order, r1) := decideOrder a b r in
  ({| playerA := a; playerB := b; turnOrder := order;
      actions := <[id b := None]> (<[id a := None]> ∅);
      round := 1; isFinished := false; winnerId := None |}, r1).

Definition getPlayer (b : Battle) (k : option string) : option Combatant :=
  if bool_decide (Some (id (playerA b)) = k) then Some (playerA b)
  else if bool_decide (Some (id (playerB b)) = k) then Some (playerB b)
  else None.

Definition getOpponent (b : Battle) (k : option string) : option Combatant :=
  if bool_decide (Some (id (playerA b)) = k) then Some (playerB b)
  else if bool_decide (Some (id (playerB b)) = k) then Some (playerA b)
  else None.

(** [Object.values(this.actions).every((a) => a !== null)] *)
Definition isReady (b : Battle) : bool :=
  bool_decide (map_Forall (λ _ a, a ≠ None) (actions b)).

Definition resetActions (b : Battle) : Battle :=
  write_actions b (<[id (playerB b) := None]> (<[id (playerA b) := None]> (actions b))).

Definition checkEnd (b : Battle) : bool * Battle :=
  if (hp (playerA b) <=? 0) && (hp (playerB b) <=? 0) then
    (true, write_outcome b None)
  else if hp (playerA b) <=? 0 then
    (true, write_outcome b (Some (id (playerB b))))
  else if hp (playerB b) <=? 0 then
    (true, write_outcome b (Some (id (playerA b))))
  else (false, b).

Definition actionKo (action : option string) : action_ko :=
  if bool_decide (action = Some ACTION_ATTACK) then KoAttack
  else if bool_decide (action = Some ACTION_DEFEND) then KoDefend
  else if bool_decide (action = Some ACTION_EVADE) then KoEvade
  else KoUndecided.

Definition statusLine (b : Battle) : status :=
  {| st_nameA := name (playerA b); st_hpA := hp (playerA b);
     st_maxHpA := maxHp (playerA b);
     st_nameB := name (playerB b); st_hpB := hp (playerB b);
     st_maxHpB := maxHp (playerB b) |}.

(** [winner.name] on [null] raises. *)
Definition finishMessage (b : Battle) : completion finish_message :=
  let st := statusLine b in
  if bool_decide (winnerId b = None) && (hp (playerA b) <=? 0)
     && (hp (playerB b) <=? 0)
  then Return (FinishDraw st)
  else
    match getPlayer b (winnerId b), getOpponent b (winnerId b) with
    | Some winner, Some loser => Return (FinishWinner (name winner) (name loser) st)
    | _, _ => Throw
    end.

Definition processSingleAction (b : Battle) (attacker defender : pref)
    (r : RNG) : list log_line * Battle * RNG :=
  let attackerAction := slot b (id (player b attacker)) in
  let defenderAction := slot b (id (player b defender)) in
  if bool_decide (attackerAction = Some ACTION_DEFEND) then
    ([LineDefendReady (name (player b attacker))], b, r)
  else if bool_decide (attackerAction = Some ACTION_EVADE) then
    ([LineEvadeReady (name (player b attacker))], b, r)
  else if bool_decide (attackerAction = Some ACTION_ATTACK) then
    let '(evaded, lines, r1) :=
      if bool_decide (defenderAction = Some ACTION_EVADE) then
        let '(evaded, r1) := tryEvade (player b defender) r in
        if evaded then (true, [], r1)
        else (false, [LineEvadeFail (name (player b defender))], r1)
      else (false, [], r) in
    if evaded then
      ([LineEvadeSuccess (name (player b defender)) (name (player b attacker))],
       b, r1)
    else
      let '(hit, r2) := isAttackHit (player b attacker) (player b defender) r1 in
      if negb hit then
        (lines ++ [LineMiss (name (player b attacker))], b, r2)
      else
        let '(d, r3) :=
          calcDamage (player b attacker) (player b defender) defenderAction r2 in
        let b1 := write_hp b defender (Z.max 0 (hp (player b defender) - dmg d)) in
        let defend_tail :=
          if bool_decide (defenderAction = Some ACTION_DEFEND)
          then defended d else None in
        (lines ++ [LineAttack (name (player b attacker)) (name (player b defender))
                              (dmg d) (crit_hit d) defend_tail],
         b1, r3)
  else
    ([LineNothing (name (player b attacker))], b, r).

Definition resolveRound (b : Battle) (r : RNG)
    : completion (list log_line) * Battle * RNG :=
  let '(first, second) := turnOrder b in
  let aAction := slot b (id (playerA b)) in
  let bAction := slot b (id (playerB b)) in
  let log0 := [LineRound (round b);
               LineDeclared (name (playerA b)) (actionKo aAction)
                            (name (playerB b)) (actionKo bAction);
               LineBlank] in
  let '(l1, b1, r1) := processSingleAction b first second r in
  let '(ended1, b2) := checkEnd b1 in
  let '(l2, b3, r2) :=
    if negb ended1 then processSingleAction b2 second first r1
    else ([], b2, r1) in
  let '(ended2, b4) := checkEnd b3 in
  if ended2 then
    match finishMessage b4 with
    | Return m => (Return (log0 ++ l1 ++ l2 ++ [LineBlank; LineFinish m]), b4, r2)
    | Throw => (Throw, b4, r2)
    end
  else
    let b5 := resetActions (write_round b4 (round b4 + 1)) in
    (Return (log0 ++ l1 ++ l2 ++ [LineBlank; LineStatus (statusLine b5); LinePrompt]),
     b5, r2).

(** The object returned by [setAction]. *)
Record SetActionResult := { done : bool; done_message : reply }.

(** Truthiness of a slot value: [null], [undefined] and the empty string are
    falsy. *)
Definition truthy (a : option string) : bool :=
  match a with Some s => negb (bool_decide (s = "")) | None => false end.

Definition setAction (b : Battle) (playerId action : string) (r : RNG)
    : completion SetActionResult * Battle * RNG :=
  if isFinished b then
    (Return {| done := true; done_message := MsgAlreadyFinished |}, b, r)
  else if negb (bool_decide (is_Some (actions b !! playerId))) then
    (Return {| done := false; done_message := MsgNotParticipant |}, b, r)
  else if negb (valid_action action) then
    (Return {| done := false; done_message := MsgInvalidAction |}, b, r)
  else
    let b1 := write_actions b (<[playerId := Some action]> (actions b)) in
    if negb (isReady b1) then
      match getOpponent b1 (Some playerId) with
      | None => (Throw, b1, r)                     (* [other.id] on [null] *)
      | Some other =>
          let otherAction := slot b1 (id other) in
          let waitMsg := if truthy otherAction then MsgBothChosen else MsgWaiting in
          (Return {| done := false; done_message := waitMsg |}, b1, r)
      end
    else
      let '(result, b2, r2) := resolveRound b1 r in
      match result with
      | Return log => (Return {| done := true; done_message := MsgRound log |}, b2, r2)
      | Throw => (Throw, b2, r2)
      end.

(** ** 6. Battle manager *)

(** The two [Map]s.  A [Battle] object is stored under exactly one key (the
    one [startBattle] created it for) and [submitAction] mutates it in place:
    the model writes the mutated battle back under that key. *)
Record BattleManager := {
  battlesById : gmap string Battle;
  battleIdByPlayer : gmap string string
}.

Definition BattleManager_new : BattleManager :=
  {| battlesById := ∅; battleIdByPlayer := ∅ |}.

Definition findBattleForPlayer (m : BattleManager) (acct : string)
    : option Battle :=
  match battleIdByPlayer m !! acct with
  | None => None
  | Some battleId =>
      if bool_decide (battleId = "") then None      (* [!battleId] *)
      else battlesById m !! battleId
  end.

(** The object returned by [startBattle]. *)
Record StartResult := {
  start_ok : bool; start_battleId : string; start_message : reply
}.

Definition startBattle (m : BattleManager) (charA charB : Combatant) (r : RNG)
    : StartResult * BattleManager * RNG :=
  let battleId := makeBattleId (id charA) (id charB) in
  if bool_decide (is_Some (battlesById m !! battleId)) then
    ({| start_ok := false; start_battleId := battleId;
        start_message := MsgAlreadyInProgress |}, m, r)
  else if bool_decide (is_Some (battleIdByPlayer m !! id charA))
          || bool_decide (is_Some (battleIdByPlayer m !! id charB)) then
    ({| start_ok := false; start_battleId := battleId;
        start_message := MsgSomeoneBusy |}, m, r)
  else
    let '(battle, r1) := Battle_new charA charB r in
    let m1 :=
      {| battlesById := <[battleId := battle]> (battlesById m);
         battleIdByPlayer :=
           <[id charB := battleId]> (<[id charA := battleId]> (battleIdByPlayer m)) |} in
    let first := player battle (fst (turnOrder battle)) in
    ({| start_ok := true; start_battleId := battleId;
        start_message :=
          MsgIntro (name (playerA battle)) (name (playerB battle)) (name first)
                   (statusLine battle) |}, m1, r1).

(** The object returned by [submitAction]. *)
Record SubmitResult := { ok : bool; message : reply }.

(** The battle found for [acct], after its in-place mutation. *)
Definition store_found (m : BattleManager) (acct : string) (b : Battle)
    : BattleManager :=
  match battleIdByPlayer m !! acct with
  | Some battleId =>
      {| battlesById := <[battleId := b]> (battlesById m);
         battleIdByPlayer := battleIdByPlayer m |}
  | None => m
  end.

(** The clean-up of a finished battle. *)
Definition cleanup (m : BattleManager) (playerAcct : string) (battle : Battle)
    : BattleManager :=
  let bid := battleIdByPlayer m !! playerAcct in
  let byPlayer :=
    delete (id (playerB battle)) (delete (id (playerA battle)) (battleIdByPlayer m)) in
  {| battlesById :=
       match bid with
       | Some k => if bool_decide (k = "") then battlesById m
                   else delete k (battlesById m)
       | None => battlesById m
       end;
     battleIdByPlayer := byPlayer |}.

Definition submitAction (m : BattleManager) (playerAcct action : string)
    (r : RNG) : completion SubmitResult * BattleManager * RNG :=
  match findBattleForPlayer m playerAcct with
  | None => (Return {| ok := false; message := MsgNotInBattle |}, m, r)
  | Some battle =>
      let '(res, battle1, r1) := setAction battle playerAcct action r in
      let m1 := store_found m playerAcct battle1 in
      match res with
      | Throw => (Throw, m1, r1)
      | Return res =>
          let m2 := if isFinished battle1 then cleanup m1 playerAcct battle1
                    else m1 in
          (Return {| ok := true; message := done_message res |}, m2, r1)
      end
  end.

(** ** 7. Vocabulary of the properties *)

(** The draw the next call of [Math.random] returns. *)
Definition next_draw (r : RNG) : Q := draws r (used r).

(** The source after [n] further draws. *)
Definition advance (n : nat) (r : RNG) : RNG :=
  {| draws := draws r; used := (n + used r)%nat |}.

(** The keys of [this.actions] are the two identities, as the constructor
    makes them. *)
Definition battle_wf (b : Battle) : Prop :=
  dom (actions b) = {[ id (playerA b); id (playerB b) ]}.

(** Everything but the two hp values is the same: statistics and identities,
    turn order and the keys of the action slots. *)
Definition same_frame (b b' : Battle) : Prop :=
  turnOrder b' = turnOrder b ∧
  set_hp (playerA b') 0 = set_hp (playerA b) 0 ∧
  set_hp (playerB b') 0 = set_hp (playerB b) 0 ∧
  dom (actions b') = dom (actions b).

(** A battle driven by a sequence of [setAction] calls. *)
Fixpoint Battle_run (b : Battle) (calls : list (string * string)) (r : RNG)
    : Battle * RNG :=
  match calls with
  | [] => (b, r)
  | (playerId, action) :: rest =>
      let '(_, b1, r1) := setAction b playerId action r in
      Battle_run b1 rest r1
  end.

(** The three replies by which [setAction] turns a call down. *)
Definition is_rejection (m : reply) : bool :=
  match m with
  | MsgAlreadyFinished | MsgNotParticipant | MsgInvalidAction => true
  | _ => false
  end.

(** The outcome of a battle, read off the finished flag and the nullable
    winner of the source. *)
Inductive outcome := InProgress | Draw | Decided (winner : string).

Definition outcome_of (b : Battle) : outcome :=
  if isFinished b then
    match winnerId b with None => Draw | Some w => Decided w end
  else InProgress.

(** The end condition in the words of the specification: both hp at or below
    0 is a draw, exactly one is a decision for the survivor. *)
Definition spec_end_condition (a b : Combatant) : outcome :=
  if bool_decide (hp a <= 0 ∧ hp b <= 0) then Draw
  else if bool_decide (hp a <= 0) then Decided (id b)
  else if bool_decide (hp b <= 0) then Decided (id a)
  else InProgress.

(** The two applications of a round in the words of the specification: the
    first combatant's action, then, unless the end condition already holds,
    the second combatant's action. *)
Definition spec_round_actions (b : Battle) (r : RNG) : Battle * RNG :=
  let '(first, second) := turnOrder b in
  let '(_, b1, r1) := processSingleAction b first second r in
  match spec_end_condition (playerA b1) (playerB b1) with
  | InProgress =>
      let '(_, b2, r2) := processSingleAction b1 second first r1 in (b2, r2)
  | _ => (b1, r1)
  end.

(** The precondition on a combatant at the start of a battle: non-negative
    statistics and full hp. *)
Definition good_stats (c : Combatant) : Prop :=
  0 <= maxHp c ∧ 0 <= atk c ∧ 0 <= def c ∧ 0 <= agi c ∧ 0 <= speed c ∧
  hp c = maxHp c.

(** Both hp values lie between 0 and the maximum, and attack values are
    non-negative. *)
Definition hp_ok (b : Battle) : Prop :=
  (0 <= hp (playerA b) <= maxHp (playerA b)) ∧
  (0 <= hp (playerB b) <= maxHp (playerB b)) ∧
  0 <= atk (playerA b) ∧ 0 <= atk (playerB b).

(** The damage a log line reports (0 for the lines that report none), and the
    log lines of a reply. *)
Definition line_damage (l : log_line) : Z :=
  match l with LineAttack _ _ d _ _ => d | _ => 0 end.

Definition reply_lines (m : reply) : list log_line :=
  match m with MsgRound log => log | _ => [] end.

(** The turn order holds the two combatants, once each. *)
Definition order_ok (b : Battle) : Prop :=
  turnOrder b = (PlayerA, PlayerB) ∨ turnOrder b = (PlayerB, PlayerA).

(** The outcome agrees with the hp values: a live battle has two standing
    combatants, a decided one has a standing winner and a fallen loser, and
    there is no draw. *)
Definition settled (b : Battle) : Prop :=
  match outcome_of b with
  | InProgress => 0 < hp (playerA b) ∧ 0 < hp (playerB b)
  | Draw => False
  | Decided w =>
      (w = id (playerA b) ∧ 0 < hp (playerA b) ∧ hp (playerB b) <= 0) ∨
      (w = id (playerB b) ∧ 0 < hp (playerB b) ∧ hp (playerA b) <= 0)
  end.

(** Requests served by the manager, one at a time. *)
Inductive request :=
| Start (charA charB : Combatant)
| Action (playerAcct action : string).

Definition serve (m : BattleManager) (q : request) (r : RNG)
    : BattleManager * RNG :=
  match q with
  | Start charA charB =>
      let '(_, m1, r1) := startBattle m charA charB r in (m1, r1)
  | Action playerAcct action =>
      let '(_, m1, r1) := submitAction m playerAcct action r in (m1, r1)
  end.

Fixpoint serve_all (m : BattleManager) (qs : list request) (r : RNG)
    : BattleManager * RNG :=
  match qs with
  | [] => (m, r)
  | q :: rest => let '(m1, r1) := serve m q r in serve_all m1 rest r1
  end.

(** [acct] is part of the non-finished battle [b] registered under [k]. *)
Definition fights_in (m : BattleManager) (acct k : string) (b : Battle) : Prop :=
  battlesById m !! k = Some b ∧ isFinished b = false ∧
  (acct = id (playerA b) ∨ acct = id (playerB b)).

(** The invariant of the registry: every entry of the participant map points
    to a registered battle the identity is part of; every registered battle
    is live and well formed, sits under the key of its two identities, and
    has both identities in the participant map. *)
Record registry_inv (m : BattleManager) : Prop := {
  inv_player : ∀ acct k, battleIdByPlayer m !! acct = Some k →
    ∃ b, battlesById m !! k = Some b ∧
         (acct = id (playerA b) ∨ acct = id (playerB b));
  inv_battle : ∀ k b, battlesById m !! k = Some b →
    isFinished b = false ∧ battle_wf b ∧
    k = makeBattleId (id (playerA b)) (id (playerB b)) ∧
    battleIdByPlayer m !! id (playerA b) = Some k ∧
    battleIdByPlayer m !! id (playerB b) = Some k
}.

(** ** 8. Sample data *)

(** The two sample characters of [loadCharacters] as [buildCharacterFromAcct]
    hands them to a battle ([hp = maxHp]; display names transliterated). *)
Definition sawa2 : Combatant :=
  {| id := "sawa_2@mastodon.social"; name := "sawa"; maxHp := 100; hp := 100;
     atk := 20; def := 10; agi := 15; speed := 18; crit := Some (1 # 10)%Q |}.

Definition sawa : Combatant :=
  {| id := "sawa_@mastodon.social"; name := "sawa 2"; maxHp := 90; hp := 90;
     atk := 22; def := 9; agi := 28; speed := 20; crit := Some (3 # 25)%Q |}.

(** A combatant that falls to one blow. *)
Definition frail : Combatant :=
  {| id := "frail@mastodon.social"; name := "frail"; maxHp := 10; hp := 10;
     atk := 1; def := 0; agi := 15; speed := 1; crit := None |}.


(** A random source that returns a finite script of draws, then [d] for
    ever. *)
Definition scripted (l : list Q) (d : Q) : RNG :=
  {| draws := fun n => nth n l d; used := 0 |}.

(** A battle between the two sample characters, and a battle with chosen
    values in the two slots. *)
Definition duel : Battle := (Battle_new sawa2 sawa (scripted [] 0%Q)).1.

Definition declared (b : Battle) (actionA actionB : option string) : Battle :=
  write_actions b (<[id (playerB b) := actionB]> (<[id (playerA b) := actionA]> (actions b))).

(** The battle of [sawa2] against [frail] after one exchange of attacks in
    which the first blow lands: it is finished. *)
Definition fallen : Battle :=
  (Battle_run (Battle_new sawa2 frail (scripted [] 0%Q)).1
              [("sawa_2@mastodon.social", "attack"); ("frail@mastodon.social", "attack")]
              (scripted [0%Q; (1 # 2)%Q] 0%Q)).1.

(** The registry after a battle between [sawa2] and [frail] was started and
    [sawa2] declared an attack, and the battle it holds. *)
Definition arena : BattleManager :=
  (serve_all BattleManager_new
     [Start sawa2 frail; Action "sawa_2@mastodon.social" "attack"]
     (scripted [] 0%Q)).1.

Definition arena_battle : Battle :=
  declared (Battle_new sawa2 frail (scripted [] 0%Q)).1 (Some "attack") None.

(** ** 9. Further functions of the source *)

(** A cell of the hp bar: the full block or the light shade. *)
Inductive cell := Full | Blank.

(** [Math.round (ratio * width)] for the clamped ratio of a division whose
    divisor is not 0: the nearest integer, ties upwards.  (For the default
    width of 10 the double-precision result is this exact one.) *)
Definition filled_cells (hp maxHp : Z) (width : nat) : nat :=
  let ratio := clamp 0 1 (inject_Z hp / inject_Z maxHp)%Q in
  Z.to_nat (Qfloor (ratio * inject_Z (Z.of_nat width) + (1 # 2))%Q).

(** [hpBar]: [hp / maxHp] with [maxHp = 0] is [Infinity], [-Infinity] or
    [NaN]; the first two clamp to 1 and 0, and [NaN] goes through [Math.max],
    [Math.min] and [Math.round] to [repeat], which takes it for 0 on both
    sides and gives the empty string. *)
Definition hpBar (hp maxHp : Z) (width : nat) : list cell :=
  if maxHp =? 0 then
    if 0 <? hp then replicate width Full
    else if hp <? 0 then replicate width Blank
    else []
  else
    let filled := filled_cells hp maxHp width in
    replicate filled Full ++ replicate (width - filled) Blank.

(** ** 10. Commands and the status handler *)

(** The bot's own account, as the engine file has it. *)
Definition BOT_ACCT : string := "bot@your.instance".

(** [ACTION_KO_TO_ENUM], in insertion order. *)
Definition ACTION_KO_TO_ENUM : list (string * string) :=
  [("공격", ACTION_ATTACK); ("방어", ACTION_DEFEND); ("회피", ACTION_EVADE)].

(** [hay.includes(needle)] *)
Fixpoint includes (needle hay : string) : bool :=
  String.prefix needle hay ||
  match hay with
  | EmptyString => false
  | String _ rest => includes needle rest
  end.

(** [a.startsWith('@') ? a.slice(1) : a] *)
Definition strip_at (a : string) : string :=
  match a with
  | String "@"%char rest => rest
  | _ => a
  end.

(** The value [parseCommand] returns. *)
Inductive command :=
| CmdStart
| CmdAction (action : string)
| CmdUnknown.

(** An entry of the character store. *)
Record Template := {
  base_id : string;
  baseName : string;
  base_maxHp : Z;
  base_atk : Z;
  base_def : Z;
  base_agi : Z;
  base_speed : Z;
  base_crit : option Q
}.

(** What the handler reads of a status: [status.account.acct],
    [status.account.display_name], [status.content], [status.text] and, for
    every element of [status.mentions], its [acct]; an absent or [null] value
    is [None]. *)
Record Status := {
  account_acct : option string;
  account_display_name : option string;
  content : option string;
  text : option string;
  mentions : option (list (option string))
}.

(** The replies the handler writes itself, beside those of the manager. *)
Inductive handler_reply :=
| ReplyManager (m : reply)          (* [res.message] of the manager *)
| ReplyTwoMentions                  (* fewer than two accounts mentioned *)
| ReplySelf                         (* the same account twice *)
| ReplyMissing (missing : list string)   (* accounts without a character *)
| ReplyNotRegistered.               (* the actor has no character *)

(** An account the start command keeps of the mentioned ones: not empty and
    not the bot's own. *)
Definition mentionable (acct : string) : Prop := acct ≠ "" ∧ acct ≠ BOT_ACCT.

Section Handler.

(** [normalizeText] is a chain of regular-expression replacements followed
    by [trim], and [trim] is the built-in of strings: the functions below
    are stated for any two such functions.  The character store is the
    [Map] that [loadCharacters] returns. *)
Variable normalizeText : string → string.
Variable trim : string → string.
Variable characterStore : gmap string Template.

Definition parseCommand (statusText : string) : command :=
  let text := normalizeText statusText in
  if bool_decide (text = "") then CmdUnknown
  else if includes "전투" text then CmdStart
  else
    match find (λ entry, includes entry.1 text) ACTION_KO_TO_ENUM with
    | Some entry => CmdAction entry.2
    | None => CmdUnknown
    end.

(** [accountLike?.display_name?.trim()], then the fallback for a falsy
    result. *)
Definition pickDisplayName (display_name : option string) (fallback : string)
    : string :=
  match trim <$> display_name with
  | Some dn => if bool_decide (dn = "") then fallback else dn
  | None => fallback
  end.

Definition buildCharacterFromAcct (acct : string)
    (displayNameMaybe : option string) : option Combatant :=
  match characterStore !! acct with
  | None => None
  | Some base =>
      Some {| id := base_id base;
              name := pickDisplayName displayNameMaybe (baseName base);
              maxHp := base_maxHp base; hp := base_maxHp base;
              atk := base_atk base; def := base_def base; agi := base_agi base;
              speed := base_speed base; crit := base_crit base |}
  end.

(** [extractMentionedAccts]: [filter(Boolean)] drops the absent and the empty
    accounts before the trimming. *)
Definition extractMentionedAccts (st : Status) : list string :=
  let accts :=
    trim <$> omap (λ a, match a with
                        | Some s => if bool_decide (s = "") then None else Some s
                        | None => None
                        end) (default [] (mentions st)) in
  strip_at <$> accts.

(** [handleIncomingStatus], on the manager and the random source it uses. *)
Definition handleIncomingStatus (m : BattleManager) (st : Status) (r : RNG)
    : completion (option handler_reply) * BattleManager * RNG :=
  let actorAcct := strip_at <$> account_acct st in
  let content :=
    match content st with
    | Some c => c
    | None => default "" (text st)
    end in
  let cmd := parseCommand content in
  match actorAcct with
  | None => (Return None, m, r)
  | Some actor =>
    if bool_decide (actor = "") then (Return None, m, r)
    else
    match cmd with
    | CmdStart =>
        let mentioned :=
          filter (λ a, a ≠ "" ∧ a ≠ BOT_ACCT) (extractMentionedAccts st) in
        match mentioned with
        | acctA :: acctB :: _ =>
            if bool_decide (acctA = acctB) then (Return (Some ReplySelf), m, r)
            else
              match buildCharacterFromAcct acctA None,
                    buildCharacterFromAcct acctB None with
              | Some charA, Some charB =>
                  let '(res, m1, r1) := startBattle m charA charB r in
                  (Return (Some (ReplyManager (start_message res))), m1, r1)
              | ca, cb =>
                  (Return (Some (ReplyMissing
                     ((if ca is None then [acctA] else []) ++
                      (if cb is None then [acctB] else [])))), m, r)
              end
        | _ => (Return (Some ReplyTwoMentions), m, r)
        end
    | CmdAction action =>
        if negb (bool_decide (is_Some (characterStore !! actor))) then
          (Return (Some ReplyNotRegistered), m, r)
        else
          let '(res, m1, r1) := submitAction m actor action r in
          match res with
          | Return res => (Return (Some (ReplyManager (message res))), m1, r1)
          | Throw => (Throw, m1, r1)
          end
    | CmdUnknown => (Return None, m, r)
    end
  end.

(** The statuses of a stream, handled one after the other. *)
Fixpoint handle_all (m : BattleManager) (sts : list Status) (r : RNG)
    : BattleManager * RNG :=
  match sts with
  | [] => (m, r)
  | st :: rest =>
      let '(_, m1, r1) := handleIncomingStatus m st r in
      handle_all m1 rest r1
  end.

(** Every template is stored under its own identity ("Key MUST be mastodon
    acct"). *)
Definition store_keys_ok : Prop :=
  ∀ k base, characterStore !! k = Some base → base_id base = k.

(** A registered battle is between two different identities of the store,
    and each side has the statistics of its template. *)
Definition from_store (c : Combatant) : Prop :=
  ∃ base, characterStore !! id c = Some base ∧
          maxHp c = base_maxHp base ∧ atk c = base_atk base ∧
          def c = base_def base ∧ agi c = base_agi base ∧
          speed c = base_speed base ∧ crit c = base_crit base.

Definition handler_inv (m : BattleManager) : Prop :=
  ∀ k b, battlesById m !! k = Some b →
    id (playerA b) ≠ id (playerB b) ∧
    from_store (playerA b) ∧ from_store (playerB b).

(** [status?.content ?? status?.text ?? ''] *)
Definition status_text (st : Status) : string :=
  match content st with
  | Some c => c
  | None => default "" (text st)
  end.

(** The request a status amounts to for the manager, if any. *)
Definition request_of (st : Status) : option request :=
  let content :=
    match content st with
    | Some c => c
    | None => default "" (text st)
    end in
  match strip_at <$> account_acct st with
  | None => None
  | Some actor =>
      if bool_decide (actor = "") then None
      else
        match parseCommand content with
        | CmdStart =>
            match filter (λ a, a ≠ "" ∧ a ≠ BOT_ACCT) (extractMentionedAccts st) with
            | acctA :: acctB :: _ =>
                if bool_decide (acctA = acctB) then None
                else
                  match buildCharacterFromAcct acctA None,
                        buildCharacterFromAcct acctB None with
                  | Some charA, Some charB => Some (Start charA charB)
                  | _, _ => None
                  end
            | _ => None
            end
        | CmdAction action =>
            if bool_decide (is_Some (characterStore !! actor))
            then Some (Action actor action) else None
        | CmdUnknown => None
        end
  end.

(** What the handler asks of the manager: a battle between two different
    characters of the store at full hp, or a valid action of an account of
    the store. *)
Definition good_request (q : request) : Prop :=
  match q with
  | Start charA charB =>
      id charA ≠ id charB ∧ from_store charA ∧ from_store charB ∧
      hp charA = maxHp charA ∧ hp charB = maxHp charB
  | Action playerAcct action =>
      valid_action action = true ∧ is_Some (characterStore !! playerAcct)
  end.

End Handler.

(** [loadCharacters]: the two example characters, each under its account. *)
Definition loadCharacters : gmap string Template :=
  <["sawa_@mastodon.social" :=
      {| base_id := "sawa_@mastodon.social"; baseName := "사와 2";
         base_maxHp := 90; base_atk := 22; base_def := 9; base_agi := 28;
         base_speed := 20; base_crit := Some (3 # 25)%Q |}]>
  (<["sawa_2@mastodon.social" :=
      {| base_id := "sawa_2@mastodon.social"; baseName := "사와";
         base_maxHp := 100; base_atk := 20; base_def := 10; base_agi := 15;
         base_speed := 18; base_crit := Some (1 # 10)%Q |}]> ∅).

(** A status that mentions the two sample accounts and asks for a battle. *)
Definition start_status : Status :=
  {| account_acct := Some "@host@mastodon.social";
     account_display_name := None;
     content := Some "전투 @sawa_2 @sawa_";
     text := None;
     mentions := Some [Some "sawa_2@mastodon.social"; Some "@sawa_@mastodon.social"] |}.

(** A status in which [sawa_2] writes the word for defending. *)
Definition defend_status : Status :=
  {| account_acct := Some "sawa_2@mastodon.social";
     account_display_name := Some "사와";
     content := None;
     text := Some "방어";
     mentions := None |}.

(** * Properties *)

(** ** Random source *)

Lemma Math_random_eq r : Math_random r = (next_draw r, advance 1 r).
Proof. reflexivity. Qed.

Lemma advance_advance n k r : advance n (advance k r) = advance (n + k) r.
Proof. unfold advance; simpl. f_equal. lia. Qed.

(** ** Damage *)

Section CalcDamage.
Variables attacker defender : Combatant.
Variable defenderAction : option string.
Variable r : RNG.





Lemma calcDamage_nonneg :
  0 <= atk attacker → 0 <= dmg (fst (calcDamage attacker defender defenderAction r)).
Proof.
  intros Hatk. unfold calcDamage, tryDefend. rewrite !Math_random_eq.
  repeat (case_match; simplify_eq; simpl); lia.
Qed.
End CalcDamage.

Lemma floor_times_1_5_nonneg d : 0 <= d → 0 <= floor_times_1_5 d.
Proof. intros H. unfold floor_times_1_5. apply Z.div_pos; lia. Qed.

(** On a non-negative attack value the clamp of the crit branch is idle. *)
Lemma crit_clamp_idle d : 0 <= d → Z.max 0 (floor_times_1_5 d) = floor_times_1_5 d.
Proof. intros H. apply Z.max_r. by apply floor_times_1_5_nonneg. Qed.




(** ** Single actions *)

Lemma write_hp_same b p : write_hp b p (hp (player b p)) = b.
Proof. by destruct b as [[] [] ? ? ? ? ?], p. Qed.

Lemma write_hp_frame b p h : same_frame b (write_hp b p h).
Proof. by destruct p. Qed.

Lemma same_frame_refl b : same_frame b b.
Proof. done. Qed.

Lemma same_frame_trans b1 b2 b3 :
  same_frame b1 b2 → same_frame b2 b3 → same_frame b1 b3.
Proof. unfold same_frame. intros (-> & -> & -> & ->) (-> & -> & -> & ->). done. Qed.

Lemma same_frame_id_A b b' : same_frame b b' → id (playerA b') = id (playerA b).
Proof. intros (_ & H & _). by apply (f_equal id) in H. Qed.

Lemma same_frame_id_B b b' : same_frame b b' → id (playerB b') = id (playerB b).
Proof. intros (_ & _ & H & _). by apply (f_equal id) in H. Qed.

Lemma same_frame_maxHp b b' p : same_frame b b' → maxHp (player b' p) = maxHp (player b p).
Proof. intros (_ & HA & HB & _). destruct p; [by apply (f_equal maxHp) in HA | by apply (f_equal maxHp) in HB]. Qed.

Lemma same_frame_atk b b' p : same_frame b b' → atk (player b' p) = atk (player b p).
Proof. intros (_ & HA & HB & _). destruct p; [by apply (f_equal atk) in HA | by apply (f_equal atk) in HB]. Qed.

Lemma same_frame_wf b b' : same_frame b b' → battle_wf b → battle_wf b'.
Proof.
  intros H Hwf. unfold battle_wf.
  rewrite (same_frame_id_A _ _ H), (same_frame_id_B _ _ H).
  destruct H as (_ & _ & _ & ->). done.
Qed.

(** What [processSingleAction] can do to the state: nothing, or one write of
    the defender's hp with a damage computed by [calcDamage]. *)
Lemma processSingleAction_state b a d r :
  (processSingleAction b a d r).1.2 = b ∨
  ∃ r', (processSingleAction b a d r).1.2 =
          write_hp b d (Z.max 0 (hp (player b d) -
            dmg (calcDamage (player b a) (player b d)
                            (slot b (id (player b d))) r').1)).
Proof.
  unfold processSingleAction, tryEvade, isAttackHit.
  rewrite !Math_random_eq.
  repeat case_match; simplify_eq/=; auto; right;
    match goal with
    | H : calcDamage _ _ _ ?r' = _ |- _ => exists r'; by rewrite H
    end.
Qed.

Lemma processSingleAction_frame b a d r :
  same_frame b (processSingleAction b a d r).1.2.
Proof.
  destruct (processSingleAction_state b a d r) as [-> | [r' ->]];
    [apply same_frame_refl | apply write_hp_frame].
Qed.

Lemma processSingleAction_flags b a d r :
  let b' := (processSingleAction b a d r).1.2 in
  actions b' = actions b ∧ round b' = round b ∧
  isFinished b' = isFinished b ∧ winnerId b' = winnerId b.
Proof.
  simpl. destruct (processSingleAction_state b a d r) as [-> | [r' ->]]; done.
Qed.

(** C8.  An Attack against a defender who declared Evade, when the evade draw
    succeeds: the call returns after that single draw (no hit roll, no damage
    computation) and the whole battle state, the defender's hp included, is
    the one it started from. *)
Theorem processSingleAction_evaded (b : Battle) (attacker defender : pref) (r : RNG) :
  slot b (id (player b attacker)) = Some ACTION_ATTACK →
  slot b (id (player b defender)) = Some ACTION_EVADE →
  lt_num (next_draw r) (evadeChance (player b defender)) = true →
  processSingleAction b attacker defender r =
    ([LineEvadeSuccess (name (player b defender)) (name (player b attacker))],
     b, advance 1 r) ∧
  hp (player (processSingleAction b attacker defender r).1.2 defender) =
    hp (player b defender).
Proof.
  intros Ha Hd He. unfold processSingleAction, tryEvade.
  rewrite Ha, Hd, Math_random_eq, He. done.
Qed.

Lemma processSingleAction_evaded_witness :
  processSingleAction (declared duel (Some ACTION_ATTACK) (Some ACTION_EVADE))
                      PlayerA PlayerB (scripted [0%Q] 0%Q) =
    ([LineEvadeSuccess "sawa 2" "sawa"],
     declared duel (Some ACTION_ATTACK) (Some ACTION_EVADE),
     advance 1 (scripted [0%Q] 0%Q)) ∧
  hp (player (processSingleAction
                (declared duel (Some ACTION_ATTACK) (Some ACTION_EVADE))
                PlayerA PlayerB (scripted [0%Q] 0%Q)).1.2 PlayerB) = 90.
Proof.
  apply (processSingleAction_evaded
           (declared duel (Some ACTION_ATTACK) (Some ACTION_EVADE))
           PlayerA PlayerB (scripted [0%Q] 0%Q)); reflexivity.
Defined.

(** ** End of a battle *)

Lemma checkEnd_spec b :
  match spec_end_condition (playerA b) (playerB b) with
  | InProgress => checkEnd b = (false, b)
  | Draw => checkEnd b = (true, write_outcome b None)
  | Decided w => checkEnd b = (true, write_outcome b (Some w))
  end.
Proof.
  unfold spec_end_condition, checkEnd.
  destruct (Z.leb_spec (hp (playerA b)) 0), (Z.leb_spec (hp (playerB b)) 0);
    repeat case_bool_decide; simpl; try done; lia.
Qed.

Lemma checkEnd_outcome b :
  isFinished b = false →
  outcome_of (checkEnd b).2 = spec_end_condition (playerA b) (playerB b).
Proof.
  intros Hf. pose proof (checkEnd_spec b) as H.
  destruct (spec_end_condition _ _); rewrite H; simpl; [|done..].
  unfold outcome_of. by rewrite Hf.
Qed.

Lemma checkEnd_players b :
  playerA (checkEnd b).2 = playerA b ∧ playerB (checkEnd b).2 = playerB b ∧
  turnOrder (checkEnd b).2 = turnOrder b ∧ actions (checkEnd b).2 = actions b ∧
  round (checkEnd b).2 = round b.
Proof.
  pose proof (checkEnd_spec b) as H.
  destruct (spec_end_condition _ _); by rewrite H.
Qed.

Lemma checkEnd_frame b : same_frame b (checkEnd b).2.
Proof.
  destruct (checkEnd_players b) as (HA & HB & HT & HS & _).
  unfold same_frame. by rewrite HA, HB, HT, HS.
Qed.

Lemma checkEnd_finished b :
  isFinished (checkEnd b).2 = (checkEnd b).1 || isFinished b.
Proof.
  pose proof (checkEnd_spec b) as H.
  destruct (spec_end_condition _ _); by rewrite H.
Qed.

(** After a positive [checkEnd] the finish message can always be built. *)
Lemma finishMessage_after_checkEnd b :
  (checkEnd b).1 = true → ∃ m, finishMessage (checkEnd b).2 = Return m.
Proof.
  pose proof (checkEnd_spec b) as H. revert H.
  unfold spec_end_condition.
  repeat case_bool_decide; intros ->; simpl; try done; intros _;
    unfold finishMessage, getPlayer, getOpponent; simpl;
    repeat (case_bool_decide; simpl; simplify_eq); eauto;
    destruct (hp (playerA b) <=? 0) eqn:?, (hp (playerB b) <=? 0) eqn:?;
    simpl; eauto; lia.
Qed.

(** ** Round resolution *)

(** [resolveRound] against the specification's two applications: the state it
    leaves is the state after those, closed by the end condition. *)
Lemma resolveRound_char b r :
  ∃ log,
    resolveRound b r =
      (Return log,
       match spec_end_condition (playerA (spec_round_actions b r).1)
                           (playerB (spec_round_actions b r).1) with
       | InProgress =>
           resetActions (write_round (spec_round_actions b r).1
                                     (round (spec_round_actions b r).1 + 1))
       | Draw => write_outcome (spec_round_actions b r).1 None
       | Decided w => write_outcome (spec_round_actions b r).1 (Some w)
       end,
       (spec_round_actions b r).2).
Proof.
  unfold resolveRound, spec_round_actions.
  destruct (turnOrder b) as [first second].
  destruct (processSingleAction b first second r) as [[l1 b1] r1].
  pose proof (checkEnd_spec b1) as H1.
  destruct (spec_end_condition (playerA b1) (playerB b1)) eqn:E1; rewrite H1; simpl.
  - destruct (processSingleAction b1 second first r1) as [[l2 b3] r3]. simpl.
    pose proof (checkEnd_spec b3) as H3.
    pose proof (finishMessage_after_checkEnd b3) as HF.
    destruct (spec_end_condition (playerA b3) (playerB b3)) eqn:E3;
      rewrite H3 in *; simpl in *; eauto;
      destruct HF as [m ->]; eauto.
  - pose proof (checkEnd_spec (write_outcome b1 None)) as H3.
    pose proof (finishMessage_after_checkEnd (write_outcome b1 None)) as HF.
    simpl in H3. rewrite E1 in H3. rewrite H3 in *. simpl in *.
    rewrite ?E1. destruct HF as [m ->]; eauto.
  - pose proof (checkEnd_spec (write_outcome b1 (Some winner))) as H3.
    pose proof (finishMessage_after_checkEnd (write_outcome b1 (Some winner))) as HF.
    simpl in H3. rewrite E1 in H3. rewrite H3 in *. simpl in *.
    rewrite ?E1. destruct HF as [m ->]; eauto.
Qed.

Lemma resolveRound_returns b r : ∃ log, (resolveRound b r).1.1 = Return log.
Proof. destruct (resolveRound_char b r) as [log ->]. eauto. Qed.

Lemma spec_round_actions_frame b r : same_frame b (spec_round_actions b r).1.
Proof.
  unfold spec_round_actions. destruct (turnOrder b) as [first second].
  pose proof (processSingleAction_frame b first second r) as F1.
  destruct (processSingleAction b first second r) as [[l1 b1] r1]. simpl in F1.
  destruct (spec_end_condition _ _); try done.
  pose proof (processSingleAction_frame b1 second first r1) as F2.
  destruct (processSingleAction b1 second first r1) as [[l2 b2] r2].
  eapply same_frame_trans; eauto.
Qed.

Lemma spec_round_actions_flags b r :
  let b' := (spec_round_actions b r).1 in
  actions b' = actions b ∧ round b' = round b ∧
  isFinished b' = isFinished b ∧ winnerId b' = winnerId b.
Proof.
  unfold spec_round_actions. destruct (turnOrder b) as [first second].
  pose proof (processSingleAction_flags b first second r) as F1.
  destruct (processSingleAction b first second r) as [[l1 b1] r1]. simpl in F1.
  destruct (spec_end_condition _ _); try done.
  pose proof (processSingleAction_flags b1 second first r1) as F2.
  destruct (processSingleAction b1 second first r1) as [[l2 b2] r2].
  simpl in *. intuition congruence.
Qed.

Lemma resetActions_frame b : battle_wf b → same_frame b (resetActions b).
Proof.
  unfold battle_wf, same_frame, resetActions. simpl. intros Hwf.
  repeat split. rewrite !dom_insert_L, Hwf. clear Hwf. set_solver.
Qed.

Lemma resolveRound_frame b r : battle_wf b → same_frame b (resolveRound b r).1.2.
Proof.
  intros Hwf. destruct (resolveRound_char b r) as [log ->]. simpl.
  pose proof (spec_round_actions_frame b r) as F.
  destruct (spec_end_condition _ _); try (eapply same_frame_trans; [exact F|done]).
  eapply same_frame_trans; [exact F|].
  eapply same_frame_trans; [|apply resetActions_frame].
  - done.
  - eapply same_frame_wf; [|exact Hwf]. done.
Qed.

(** C2.  A round: the state [resolveRound] leaves has the combatants (hence
    the hp values) and has consumed the draws of the first combatant's action
    followed, only when the end condition does not already hold, by the second
    combatant's action.  With both hp at or below 0 the battle is finished
    without a winner; with exactly one, it is finished and the winner is the
    survivor's identity; in both cases round and slots stay.  Otherwise the
    round counter is one more and both slots are cleared.  In a battle that
    was live, the outcome read off the flags is the end condition of the
    specification. *)
Theorem resolveRound_outcome (b : Battle) (r : RNG) :
  let after := (spec_round_actions b r).1 in
  let b' := (resolveRound b r).1.2 in
  (resolveRound b r).2 = (spec_round_actions b r).2 ∧
  playerA b' = playerA after ∧ playerB b' = playerB after ∧
  (hp (playerA after) <= 0 ∧ hp (playerB after) <= 0 →
     isFinished b' = true ∧ winnerId b' = None ∧
     round b' = round b ∧ actions b' = actions b) ∧
  (hp (playerA after) <= 0 ∧ 0 < hp (playerB after) →
     isFinished b' = true ∧ winnerId b' = Some (id (playerB b')) ∧
     round b' = round b ∧ actions b' = actions b) ∧
  (0 < hp (playerA after) ∧ hp (playerB after) <= 0 →
     isFinished b' = true ∧ winnerId b' = Some (id (playerA b')) ∧
     round b' = round b ∧ actions b' = actions b) ∧
  (0 < hp (playerA after) ∧ 0 < hp (playerB after) →
     round b' = round b + 1 ∧
     slot b' (id (playerA b')) = None ∧ slot b' (id (playerB b')) = None ∧
     isFinished b' = isFinished b ∧ winnerId b' = winnerId b) ∧
  (isFinished b = false →
     outcome_of b' = spec_end_condition (playerA after) (playerB after)).
Proof.
  simpl.
  destruct (resolveRound_char b r) as [log ->]. simpl.
  destruct (spec_round_actions_flags b r) as (Ha & Hr & Hfin & Hw).
  set (after := (spec_round_actions b r).1) in *.
  unfold spec_end_condition.
  repeat case_bool_decide; simpl;
    (split; [done|]); (split; [done|]); (split; [done|]);
    repeat split; try done; try lia.
  - unfold slot. simpl.
    destruct (decide (id (playerB after) = id (playerA after))) as [->|];
      [by rewrite lookup_insert_eq
      |by rewrite lookup_insert_ne, lookup_insert_eq].
  - unfold slot. simpl. by rewrite lookup_insert_eq.
  - intros Hlive. unfold outcome_of. simpl. by rewrite Hfin, Hlive.
Qed.

Lemma resolveRound_outcome_witness :
  (* both attack, both hit without crit: the battle goes on *)
  outcome_of (resolveRound (declared duel (Some ACTION_ATTACK) (Some ACTION_ATTACK))
                           (scripted [0%Q; (1 # 2)%Q; 0%Q; (1 # 2)%Q] 0%Q)).1.2
    = InProgress ∧
  round (resolveRound (declared duel (Some ACTION_ATTACK) (Some ACTION_ATTACK))
                      (scripted [0%Q; (1 # 2)%Q; 0%Q; (1 # 2)%Q] 0%Q)).1.2 = 2 ∧
  (* the first blow ends the battle: the second action is not applied *)
  outcome_of (resolveRound
                (declared (Battle_new sawa2 frail (scripted [] 0%Q)).1
                          (Some ACTION_ATTACK) (Some ACTION_ATTACK))
                (scripted [0%Q; (1 # 2)%Q] 0%Q)).1.2
    = Decided "sawa_2@mastodon.social" ∧
  (resolveRound
     (declared (Battle_new sawa2 frail (scripted [] 0%Q)).1
               (Some ACTION_ATTACK) (Some ACTION_ATTACK))
     (scripted [0%Q; (1 # 2)%Q] 0%Q)).2 = advance 2 (scripted [0%Q; (1 # 2)%Q] 0%Q).
Proof.
  pose proof (resolveRound_outcome
                (declared duel (Some ACTION_ATTACK) (Some ACTION_ATTACK))
                (scripted [0%Q; (1 # 2)%Q; 0%Q; (1 # 2)%Q] 0%Q)) as H1.
  pose proof (resolveRound_outcome
                (declared (Battle_new sawa2 frail (scripted [] 0%Q)).1
                          (Some ACTION_ATTACK) (Some ACTION_ATTACK))
                (scripted [0%Q; (1 # 2)%Q] 0%Q)) as H2.
  cbv zeta in H1, H2.
  destruct H1 as (_ & _ & _ & _ & _ & _ & Hr1 & Ho1).
  destruct H2 as (Hd2 & _ & _ & _ & _ & _ & _ & Ho2).
  split; [|split; [|split]].
  - rewrite Ho1 by reflexivity. reflexivity.
  - apply Hr1. split; reflexivity.
  - rewrite Ho2 by reflexivity. reflexivity.
  - rewrite Hd2. reflexivity.
Defined.

(** ** Declaring an action *)

Lemma battle_wf_lookup b k :
  battle_wf b → is_Some (actions b !! k) ↔ k = id (playerA b) ∨ k = id (playerB b).
Proof. unfold battle_wf. intros Hwf. rewrite <- elem_of_dom, Hwf. set_solver. Qed.

Lemma write_actions_frame b k v :
  is_Some (actions b !! k) → same_frame b (write_actions b (<[k := v]> (actions b))).
Proof.
  intros Hk. repeat split. simpl. rewrite dom_insert_L.
  apply elem_of_dom in Hk. set_solver.
Qed.

Lemma getOpponent_Some b k :
  k = id (playerA b) ∨ k = id (playerB b) → is_Some (getOpponent b (Some k)).
Proof.
  unfold getOpponent. intros [->| ->]; repeat case_bool_decide; eauto; congruence.
Qed.

Lemma getOpponent_frame b b' k :
  same_frame b b' → is_Some (getOpponent b' k) ↔ is_Some (getOpponent b k).
Proof.
  intros H. unfold getOpponent.
  rewrite (same_frame_id_A _ _ H), (same_frame_id_B _ _ H).
  repeat case_bool_decide; split; eauto.
Qed.

(** On a well-formed battle [setAction] never raises. *)
Lemma setAction_returns b playerId action r :
  battle_wf b → ∃ res, (setAction b playerId action r).1.1 = Return res.
Proof.
  intros Hwf. unfold setAction.
  destruct (isFinished b); [eauto|].
  case_bool_decide as Hk; simpl; [|eauto].
  destruct (valid_action action); simpl; [|eauto].
  set (b1 := write_actions b _).
  destruct (isReady b1); simpl.
  - destruct (resolveRound_char b1 r) as [log ->]. eauto.
  - assert (is_Some (getOpponent b1 (Some playerId))) as [other ->]; [|eauto].
    apply (getOpponent_frame b); [by apply write_actions_frame|].
    apply getOpponent_Some. by apply battle_wf_lookup.
Qed.

Lemma setAction_frame b playerId action r :
  battle_wf b → same_frame b (setAction b playerId action r).1.2.
Proof.
  intros Hwf. unfold setAction.
  destruct (isFinished b); [done|].
  case_bool_decide as Hk; simpl; [|done].
  destruct (valid_action action); simpl; [|done].
  pose proof (write_actions_frame b playerId (Some action) Hk) as F.
  set (b1 := write_actions b _) in *.
  destruct (isReady b1); simpl.
  - pose proof (resolveRound_frame b1 r (same_frame_wf _ _ F Hwf)) as F2.
    destruct (resolveRound b1 r) as [[[log|] b2] r2]; simpl in *;
      by eapply same_frame_trans.
  - by destruct (getOpponent b1 (Some playerId)).
Qed.

Lemma setAction_wf b playerId action r :
  battle_wf b → battle_wf (setAction b playerId action r).1.2.
Proof. intros Hwf. eapply same_frame_wf; [by apply setAction_frame|done]. Qed.

Lemma setAction_finished b playerId action r :
  isFinished b = true →
  setAction b playerId action r =
    (Return {| done := true; done_message := MsgAlreadyFinished |}, b, r).
Proof. unfold setAction. by intros ->. Qed.

Lemma setAction_stranger b playerId action r :
  isFinished b = false → actions b !! playerId = None →
  setAction b playerId action r =
    (Return {| done := false; done_message := MsgNotParticipant |}, b, r).
Proof.
  unfold setAction. intros -> Hk. rewrite bool_decide_eq_false_2; [done|].
  rewrite Hk. by intros [? ?].
Qed.

Lemma setAction_invalid b playerId action r :
  isFinished b = false → is_Some (actions b !! playerId) →
  valid_action action = false →
  setAction b playerId action r =
    (Return {| done := false; done_message := MsgInvalidAction |}, b, r).
Proof.
  unfold setAction. intros -> Hk ->. by rewrite bool_decide_eq_true_2.
Qed.

Lemma Battle_run_finished b calls r :
  isFinished b = true → Battle_run b calls r = (b, r).
Proof.
  intros Hf. induction calls as [|[playerId action] calls IH]; [done|].
  simpl. by rewrite setAction_finished.
Qed.

Lemma Battle_new_wf a b r : battle_wf (Battle_new a b r).1.
Proof.
  unfold Battle_new. destruct (decideOrder a b r) as [order r1].
  unfold battle_wf. simpl. rewrite !dom_insert_L, dom_empty_L. set_solver.
Qed.

Lemma Battle_new_players a b r :
  playerA (Battle_new a b r).1 = a ∧ playerB (Battle_new a b r).1 = b ∧
  isFinished (Battle_new a b r).1 = false ∧ round (Battle_new a b r).1 = 1.
Proof. unfold Battle_new. by destruct (decideOrder a b r). Qed.

Lemma Battle_new_order a b r :
  (turnOrder (Battle_new a b r).1, (Battle_new a b r).2) = decideOrder a b r.
Proof. unfold Battle_new. by destruct (decideOrder a b r). Qed.

(** Every battle the class can produce is well formed. *)
Lemma Battle_run_wf b calls r : battle_wf b → battle_wf (Battle_run b calls r).1.
Proof.
  revert b r. induction calls as [|[playerId action] calls IH]; intros b r Hwf;
    [done|].
  simpl. pose proof (setAction_wf b playerId action r Hwf) as W.
  destruct (setAction b playerId action r) as [[res b1] r1]. by apply IH.
Qed.

Lemma setAction_rejected b playerId action r :
  battle_wf b →
  isFinished b = true ∨
  (playerId ≠ id (playerA b) ∧ playerId ≠ id (playerB b)) ∨
  valid_action action = false →
  ∃ res, setAction b playerId action r = (Return res, b, r) ∧
         is_rejection (done_message res) = true.
Proof.
  intros Hwf Hcase.
  destruct (isFinished b) eqn:Hf.
  { rewrite setAction_finished by done. eauto. }
  destruct (actions b !! playerId) as [a|] eqn:Hk.
  - destruct Hcase as [?|[[HA HB]|Hv]]; [done| |].
    + assert (is_Some (actions b !! playerId)) as Hs by eauto.
      apply battle_wf_lookup in Hs; [tauto|done].
    + rewrite setAction_invalid; eauto.
  - rewrite setAction_stranger by done. eauto.
Qed.

(** C4.  A rejected [setAction] is a no-op.  For every battle the constructor
    and any sequence of [setAction] calls produce: when it is finished, when
    the submitter is neither participant, or when the action is outside
    attack/defend/evade, the call returns one of the three rejections and the
    battle (hp, slots, round, finished flag, winner) and the random source are
    exactly what they were; on a finished battle this holds for every further
    sequence of calls. *)
Theorem setAction_rejected_noop (a0 b0 : Combatant) (r0 : RNG)
    (calls : list (string * string)) (r1 : RNG)
    (playerId action : string) (r : RNG) :
  let b := (Battle_run (Battle_new a0 b0 r0).1 calls r1).1 in
  isFinished b = true ∨
  (playerId ≠ id (playerA b) ∧ playerId ≠ id (playerB b)) ∨
  valid_action action = false →
  (∃ res, setAction b playerId action r = (Return res, b, r) ∧
          is_rejection (done_message res) = true) ∧
  (isFinished b = true → ∀ calls' r', Battle_run b calls' r' = (b, r')).
Proof.
  intros b Hcase. split.
  - apply setAction_rejected; [|done].
    apply Battle_run_wf, Battle_new_wf.
  - intros Hf calls' r'. by apply Battle_run_finished.
Qed.

Lemma setAction_rejected_noop_witness :
  (∃ res, setAction duel "stranger@mastodon.social" "attack" (scripted [] 0%Q) =
            (Return res, duel, scripted [] 0%Q) ∧
          is_rejection (done_message res) = true) ∧
  (∃ res, setAction duel "sawa_@mastodon.social" "dance" (scripted [] 0%Q) =
            (Return res, duel, scripted [] 0%Q) ∧
          is_rejection (done_message res) = true) ∧
  Battle_run fallen [("sawa_2@mastodon.social", "attack");
                     ("frail@mastodon.social", "evade")] (scripted [] 0%Q) =
    (fallen, scripted [] 0%Q).
Proof.
  split; [|split].
  - apply (setAction_rejected_noop sawa2 sawa (scripted [] 0%Q) []
             (scripted [] 0%Q) "stranger@mastodon.social" "attack"
             (scripted [] 0%Q)).
    right; left. split; compute_done.
  - apply (setAction_rejected_noop sawa2 sawa (scripted [] 0%Q) []
             (scripted [] 0%Q) "sawa_@mastodon.social" "dance"
             (scripted [] 0%Q)).
    right; right. reflexivity.
  - apply (setAction_rejected_noop sawa2 frail (scripted [] 0%Q)
             [("sawa_2@mastodon.social", "attack"); ("frail@mastodon.social", "attack")]
             (scripted [0%Q; (1 # 2)%Q] 0%Q)
             "sawa_2@mastodon.social" "attack" (scripted [] 0%Q));
      [left|]; reflexivity.
Defined.

Lemma isReady_false b k :
  actions b !! k = Some None → isReady b = false.
Proof.
  intros Hk. apply bool_decide_eq_false_2. intros Hall.
  by apply (Hall k None Hk).
Qed.

Lemma isReady_true b :
  (∀ k, is_Some (actions b !! k) → ∃ a, actions b !! k = Some (Some a)) →
  isReady b = true.
Proof.
  intros H. apply bool_decide_eq_true_2. intros k v Hk.
  destruct (H k) as [a Ha]; [eauto|]. congruence.
Qed.

Lemma getOpponent_ids b playerId other :
  getOpponent b (Some playerId) = Some other →
  (playerId = id (playerA b) ∧ id other = id (playerB b)) ∨
  (playerId = id (playerB b) ∧ id other = id (playerA b)).
Proof.
  unfold getOpponent. repeat case_bool_decide; intros; simplify_eq; auto.
Qed.

Lemma getOpponent_write_actions b a k :
  getOpponent (write_actions b a) k = getOpponent b k.
Proof. done. Qed.

(** A valid submission by a participant of a live, well-formed battle. *)
Lemma setAction_accepted b playerId action other r :
  battle_wf b →
  isFinished b = false →
  getOpponent b (Some playerId) = Some other →
  valid_action action = true →
  let b1 := write_actions b (<[playerId := Some action]> (actions b)) in
  slot b1 playerId = Some action ∧
  (id other ≠ playerId → slot b1 (id other) = slot b (id other)) ∧
  (slot b1 (id other) = None →
     setAction b playerId action r =
       (Return {| done := false; done_message := MsgWaiting |}, b1, r)) ∧
  (slot b1 (id other) ≠ None →
     ∃ log, resolveRound b1 r = (Return log, (resolveRound b1 r).1.2,
                                 (resolveRound b1 r).2) ∧
            setAction b playerId action r =
              (Return {| done := true; done_message := MsgRound log |},
               (resolveRound b1 r).1.2, (resolveRound b1 r).2)) ∧
  (isReady b1 = true ↔ slot b1 (id other) ≠ None).
Proof.
  intros Hwf Hf Hopp Hv b1.
  pose proof (getOpponent_ids _ _ _ Hopp) as Hids.
  assert (is_Some (actions b !! playerId)) as Hk
    by (apply battle_wf_lookup; [done|tauto]).
  assert (battle_wf b1) as Hwf1
    by (eapply same_frame_wf; [by apply write_actions_frame|done]).
  assert (is_Some (actions b1 !! id other)) as [oa Hoa].
  { apply battle_wf_lookup; [done|]. subst b1. simpl.
    destruct Hids as [[_ ->]|[_ ->]]; auto. }
  assert (slot b1 (id other) = oa) as Hslot by (unfold slot; by rewrite Hoa).
  assert (actions b1 !! playerId = Some (Some action)) as Hown
    by (subst b1; simpl; by rewrite lookup_insert_eq).
  assert (isReady b1 = true ↔ oa ≠ None) as Hready.
  { split.
    - intros Hr Heq. rewrite Heq in Hoa.
      by rewrite (isReady_false b1 (id other)) in Hr.
    - intros Hset. apply isReady_true. intros k Hs.
      apply battle_wf_lookup in Hs; [|done].
      assert (k = playerId ∨ k = id other) as [->| ->].
      { subst b1. simpl in Hs. destruct Hids as [[-> ->]|[-> ->]]; tauto. }
      + eauto.
      + rewrite Hoa. destruct oa; [eauto|done]. }
  rewrite Hslot. split; [|split; [|split; [|split; [|done]]]].
  - unfold slot. by rewrite Hown.
  - intros Hne. subst b1. simpl in Hoa.
    rewrite lookup_insert_ne in Hoa by done. unfold slot. by rewrite Hoa.
  - intros ->. unfold setAction. rewrite Hf, Hv, bool_decide_eq_true_2 by done.
    simpl. fold b1.
    rewrite (isReady_false b1 (id other)) by done. simpl.
    replace (getOpponent b1 (Some playerId)) with (Some other)
      by (subst b1; by rewrite getOpponent_write_actions).
    unfold slot. by rewrite Hoa.
  - intros Hset. apply Hready in Hset.
    destruct (resolveRound_char b1 r) as [log Hres].
    exists log. split; [by rewrite Hres|].
    unfold setAction. rewrite Hf, Hv, bool_decide_eq_true_2 by done.
    simpl. fold b1. rewrite Hset. simpl. by rewrite Hres.
Qed.

(** C7.  A valid submission by a participant of a live battle (any battle
    the constructor and a sequence of [setAction] calls produce).  The call
    writes (or overwrites) the submitter's slot and leaves the slot of an
    opponent of another identity as it was.  While the opponent's slot is
    unset, the call returns the waiting reply: no draw is consumed and hp,
    round and flags are untouched.  When the opponent's slot is set, the same
    call resolves the round.  So a round resolves exactly when both slots are
    set. *)
Theorem setAction_waits_or_resolves (a0 b0 : Combatant) (r0 : RNG)
    (calls : list (string * string)) (r1 : RNG)
    (playerId action : string) (other : Combatant) (r : RNG) :
  let b := (Battle_run (Battle_new a0 b0 r0).1 calls r1).1 in
  isFinished b = false →
  getOpponent b (Some playerId) = Some other →
  valid_action action = true →
  let b1 := write_actions b (<[playerId := Some action]> (actions b)) in
  slot b1 playerId = Some action ∧
  (id other ≠ playerId → slot b1 (id other) = slot b (id other)) ∧
  (slot b1 (id other) = None →
     setAction b playerId action r =
       (Return {| done := false; done_message := MsgWaiting |}, b1, r)) ∧
  (slot b1 (id other) ≠ None →
     ∃ log, resolveRound b1 r = (Return log, (resolveRound b1 r).1.2,
                                 (resolveRound b1 r).2) ∧
            setAction b playerId action r =
              (Return {| done := true; done_message := MsgRound log |},
               (resolveRound b1 r).1.2, (resolveRound b1 r).2)) ∧
  (isReady b1 = true ↔ slot b1 (id other) ≠ None).
Proof.
  intros b Hf Hopp Hv. apply setAction_accepted; try done.
  apply Battle_run_wf, Battle_new_wf.
Qed.

Lemma setAction_waits_or_resolves_witness :
  (* a first submission, then a change of mind: both wait *)
  setAction duel "sawa_2@mastodon.social" "attack" (scripted [] 0%Q) =
    (Return {| done := false; done_message := MsgWaiting |},
     declared duel (Some "attack") None, scripted [] 0%Q) ∧
  setAction (declared duel (Some "attack") None) "sawa_2@mastodon.social" "evade"
            (scripted [] 0%Q) =
    (Return {| done := false; done_message := MsgWaiting |},
     declared duel (Some "evade") None, scripted [] 0%Q) ∧
  (* the opponent answers: the round resolves *)
  done_message <$>
    match (setAction (declared duel (Some "evade") None) "sawa_@mastodon.social"
                     "defend" (scripted [] 0%Q)).1.1 with
    | Return res => Some res | Throw => None
    end =
  Some (MsgRound
    [LineRound 1; LineDeclared "sawa" KoEvade "sawa 2" KoDefend; LineBlank;
     LineDefendReady "sawa 2"; LineEvadeReady "sawa"; LineBlank;
     LineStatus {| st_nameA := "sawa"; st_hpA := 100; st_maxHpA := 100;
                   st_nameB := "sawa 2"; st_hpB := 90; st_maxHpB := 90 |};
     LinePrompt]).
Proof.
  pose proof (setAction_waits_or_resolves sawa2 sawa (scripted [] 0%Q) []
                (scripted [] 0%Q) "sawa_2@mastodon.social" "attack" sawa
                (scripted [] 0%Q) eq_refl eq_refl eq_refl) as H1.
  pose proof (setAction_waits_or_resolves sawa2 sawa (scripted [] 0%Q)
                [("sawa_2@mastodon.social", "attack")]
                (scripted [] 0%Q) "sawa_2@mastodon.social" "evade" sawa
                (scripted [] 0%Q) eq_refl eq_refl eq_refl) as H2.
  pose proof (setAction_waits_or_resolves sawa2 sawa (scripted [] 0%Q)
                [("sawa_2@mastodon.social", "attack");
                 ("sawa_2@mastodon.social", "evade")]
                (scripted [] 0%Q) "sawa_@mastodon.social" "defend" sawa2
                (scripted [] 0%Q) eq_refl eq_refl eq_refl) as H3.
  cbv zeta in H1, H2, H3.
  destruct H1 as (_ & _ & W1 & _).
  destruct H2 as (_ & _ & W2 & _).
  destruct H3 as (_ & _ & _ & R3 & _).
  split; [|split].
  - apply W1. reflexivity.
  - apply W2. reflexivity.
  - destruct R3 as [log [Hres Hset]]; [compute_done|].
    change (Battle_run (Battle_new sawa2 sawa (scripted [] 0%Q)).1
              [("sawa_2@mastodon.social", "attack");
               ("sawa_2@mastodon.social", "evade")] (scripted [] 0%Q)).1
      with (declared duel (Some "evade") None) in Hset.
    rewrite Hset. simpl. f_equal. f_equal.
    apply (f_equal (λ x, x.1.1)) in Hres. simpl in Hres.
    vm_compute in Hres. by injection Hres as <-.
Defined.

(** ** Turn order *)

Lemma Battle_run_frame b calls r :
  battle_wf b → same_frame b (Battle_run b calls r).1.
Proof.
  revert b r. induction calls as [|[playerId action] calls IH]; intros b r Hwf.
  - apply same_frame_refl.
  - simpl. pose proof (setAction_frame b playerId action r Hwf) as F.
    pose proof (setAction_wf b playerId action r Hwf) as W.
    destruct (setAction b playerId action r) as [[res b1] r1]. simpl in *.
    eapply same_frame_trans; [exact F|by apply IH].
Qed.

(** C6.  The turn order is decided by the constructor: the faster combatant
    first without any draw, and on equal speed by one draw compared with 1/2.
    It is a field of the battle that no sequence of [setAction] calls (hence
    no round) changes, whatever the random source. *)
Theorem turnOrder_fixed (a b : Combatant) (r : RNG)
    (calls : list (string * string)) (r' : RNG) :
  let battle := (Battle_new a b r).1 in
  (speed a > speed b →
     turnOrder battle = (PlayerA, PlayerB) ∧ (Battle_new a b r).2 = r) ∧
  (speed b > speed a →
     turnOrder battle = (PlayerB, PlayerA) ∧ (Battle_new a b r).2 = r) ∧
  (speed a = speed b →
     turnOrder battle =
       (if lt_num (next_draw r) (1 # 2) then (PlayerA, PlayerB)
        else (PlayerB, PlayerA)) ∧
     (Battle_new a b r).2 = advance 1 r) ∧
  turnOrder (Battle_run battle calls r').1 = turnOrder battle.
Proof.
  simpl. pose proof (Battle_new_order a b r) as Ho.
  unfold decideOrder in Ho. rewrite Math_random_eq in Ho.
  repeat split.
  - destruct (Z.gtb_spec (speed a) (speed b)); [by simplify_eq|lia].
  - destruct (Z.gtb_spec (speed a) (speed b)); [by simplify_eq|lia].
  - destruct (Z.gtb_spec (speed a) (speed b)); [lia|].
    destruct (Z.gtb_spec (speed b) (speed a)); [by simplify_eq|lia].
  - destruct (Z.gtb_spec (speed a) (speed b)); [lia|].
    destruct (Z.gtb_spec (speed b) (speed a)); [by simplify_eq|lia].
  - destruct (Z.gtb_spec (speed a) (speed b)); [lia|].
    destruct (Z.gtb_spec (speed b) (speed a)); [lia|]. by simplify_eq.
  - destruct (Z.gtb_spec (speed a) (speed b)); [lia|].
    destruct (Z.gtb_spec (speed b) (speed a)); [lia|]. by simplify_eq.
  - by destruct (Battle_run_frame (Battle_new a b r).1 calls r'
                   (Battle_new_wf a b r)) as [-> _].
Qed.

Lemma turnOrder_fixed_witness :
  turnOrder duel = (PlayerB, PlayerA) ∧
  turnOrder (Battle_new sawa2 sawa2 (scripted [(1 # 4)%Q] 0%Q)).1 = (PlayerA, PlayerB) ∧
  turnOrder (Battle_new sawa2 sawa2 (scripted [(1 # 2)%Q] 0%Q)).1 = (PlayerB, PlayerA) ∧
  turnOrder (Battle_run duel
               [("sawa_2@mastodon.social", "attack"); ("sawa_@mastodon.social", "attack");
                ("sawa_@mastodon.social", "evade"); ("sawa_2@mastodon.social", "attack")]
               (scripted [0%Q; (1 # 2)%Q; 0%Q; (1 # 2)%Q] 0%Q)).1 = (PlayerB, PlayerA).
Proof.
  split; [|split; [|split]].
  - apply (proj1 (proj2 (turnOrder_fixed sawa2 sawa (scripted [] 0%Q) [] (scripted [] 0%Q)))).
    reflexivity.
  - apply (proj1 (proj2 (proj2 (turnOrder_fixed sawa2 sawa2 (scripted [(1 # 4)%Q] 0%Q)
                                  [] (scripted [] 0%Q))))).
    reflexivity.
  - apply (proj1 (proj2 (proj2 (turnOrder_fixed sawa2 sawa2 (scripted [(1 # 2)%Q] 0%Q)
                                  [] (scripted [] 0%Q))))).
    reflexivity.
  - unfold duel.
    rewrite (proj2 (proj2 (proj2 (turnOrder_fixed sawa2 sawa (scripted [] 0%Q)
               [("sawa_2@mastodon.social", "attack"); ("sawa_@mastodon.social", "attack");
                ("sawa_@mastodon.social", "evade"); ("sawa_2@mastodon.social", "attack")]
               (scripted [0%Q; (1 # 2)%Q; 0%Q; (1 # 2)%Q] 0%Q))))).
    reflexivity.
Defined.

(** ** Bounds on damage and hp *)

Lemma set_hp_eq c c' : set_hp c' 0 = set_hp c 0 → c' = set_hp c (hp c').
Proof. destruct c, c'. unfold set_hp. simpl. intros [= -> -> -> -> -> -> -> ->]. done. Qed.

Lemma write_hp_hp_ok b d h :
  hp_ok b → 0 <= h <= hp (player b d) → hp_ok (write_hp b d h).
Proof. unfold hp_ok. destruct d; simpl; lia. Qed.

Lemma processSingleAction_hp_ok b a d r :
  hp_ok b → hp_ok (processSingleAction b a d r).1.2.
Proof.
  intros Hok.
  destruct (processSingleAction_state b a d r) as [-> | [r' ->]]; [done|].
  apply write_hp_hp_ok; [done|].
  pose proof (calcDamage_nonneg (player b a) (player b d)
                (slot b (id (player b d))) r') as Hd.
  assert (0 <= atk (player b a)) as Ha by (destruct a; apply Hok).
  assert (0 <= hp (player b d)) as Hh by (destruct d; apply Hok).
  lia.
Qed.

Lemma spec_round_actions_hp_ok b r : hp_ok b → hp_ok (spec_round_actions b r).1.
Proof.
  intros Hok. unfold spec_round_actions. destruct (turnOrder b) as [first second].
  pose proof (processSingleAction_hp_ok b first second r Hok) as H1.
  destruct (processSingleAction b first second r) as [[l1 b1] r1]. simpl in H1.
  destruct (spec_end_condition _ _); try done.
  pose proof (processSingleAction_hp_ok b1 second first r1 H1) as H2.
  by destruct (processSingleAction b1 second first r1) as [[l2 b2] r2].
Qed.

Lemma resolveRound_players b r :
  playerA (resolveRound b r).1.2 = playerA (spec_round_actions b r).1 ∧
  playerB (resolveRound b r).1.2 = playerB (spec_round_actions b r).1.
Proof.
  destruct (resolveRound_char b r) as [log ->]. simpl.
  by destruct (spec_end_condition _ _).
Qed.

Lemma resolveRound_hp_ok b r : hp_ok b → hp_ok (resolveRound b r).1.2.
Proof.
  intros Hok. pose proof (spec_round_actions_hp_ok b r Hok) as H.
  destruct (resolveRound_players b r) as [HA HB].
  unfold hp_ok in *. by rewrite HA, HB.
Qed.

(** The state [setAction] leaves: the one it found, the one with the slot
    written, or that one after [resolveRound]. *)
Lemma setAction_state b playerId action r :
  let b1 := write_actions b (<[playerId := Some action]> (actions b)) in
  (setAction b playerId action r).1.2 = b ∨
  (setAction b playerId action r).1.2 = b1 ∨
  (setAction b playerId action r).1.2 = (resolveRound b1 r).1.2.
Proof.
  simpl. unfold setAction.
  destruct (isFinished b); [by left|].
  case_bool_decide; simpl; [|by left].
  destruct (valid_action action); simpl; [|by left].
  destruct (isReady _); simpl.
  - right; right. by destruct (resolveRound _ r) as [[[log|] b2] r2].
  - right; left. by destruct (getOpponent _ _).
Qed.

Lemma setAction_hp_ok b playerId action r :
  hp_ok b → hp_ok (setAction b playerId action r).1.2.
Proof.
  intros Hok.
  destruct (setAction_state b playerId action r) as [-> | [-> | ->]];
    [done|done|by apply resolveRound_hp_ok].
Qed.

Lemma Battle_run_hp_ok b calls r : hp_ok b → hp_ok (Battle_run b calls r).1.
Proof.
  revert b r. induction calls as [|[playerId action] calls IH]; intros b r Hok.
  - done.
  - simpl. pose proof (setAction_hp_ok b playerId action r Hok) as H.
    destruct (setAction b playerId action r) as [[res b1] r1]. by apply IH.
Qed.

Lemma processSingleAction_lines b a d r :
  hp_ok b → Forall (λ l, 0 <= line_damage l) (processSingleAction b a d r).1.1.
Proof.
  intros Hok.
  assert (∀ x r', 0 <= dmg (calcDamage (player b a) (player b d) x r').1) as Hd.
  { intros x r'. apply calcDamage_nonneg. destruct a; apply Hok. }
  unfold processSingleAction, tryEvade, isAttackHit.
  rewrite !Math_random_eq.
  repeat case_match; simplify_eq/=; repeat constructor; simpl; try lia;
    match goal with
    | H : calcDamage _ _ ?x ?r' = _ |- _ =>
        specialize (Hd x r'); by rewrite H in Hd
    end.
Qed.

Lemma checkEnd_hp_ok b : hp_ok b → hp_ok (checkEnd b).2.
Proof.
  destruct (checkEnd_players b) as (HA & HB & _).
  unfold hp_ok. by rewrite HA, HB.
Qed.

Lemma resolveRound_lines b r log :
  hp_ok b → (resolveRound b r).1.1 = Return log →
  Forall (λ l, 0 <= line_damage l) log.
Proof.
  intros Hok. unfold resolveRound.
  destruct (turnOrder b) as [first second].
  pose proof (processSingleAction_lines b first second r Hok) as L1.
  pose proof (processSingleAction_hp_ok b first second r Hok) as Hok1.
  destruct (processSingleAction b first second r) as [[l1 b1] r1].
  simpl in L1, Hok1.
  pose proof (checkEnd_hp_ok b1 Hok1) as Hok2.
  destruct (checkEnd b1) as [ended1 b2]. simpl in Hok2.
  assert (Forall (λ l, 0 <= line_damage l)
            (if negb ended1 then processSingleAction b2 second first r1
             else ([], b2, r1)).1.1) as L2.
  { destruct ended1; simpl; [done|]. by apply processSingleAction_lines. }
  destruct (if negb ended1 then _ else _) as [[l2 b3] r2]. simpl in L2.
  destruct (checkEnd b3) as [[] b4].
  - destruct (finishMessage b4); [|done]. intros [= <-].
    repeat first [ apply Forall_app_2; [done|] | constructor; [simpl; lia|]
                 | constructor ].
  - intros [= <-].
    repeat first [ apply Forall_app_2; [done|] | constructor; [simpl; lia|]
                 | constructor ].
Qed.

Lemma setAction_lines b playerId action r res :
  hp_ok b → (setAction b playerId action r).1.1 = Return res →
  Forall (λ l, 0 <= line_damage l) (reply_lines (done_message res)).
Proof.
  intros Hok. unfold setAction.
  destruct (isFinished b); [by intros [= <-]|].
  case_bool_decide; simpl; [|by intros [= <-]].
  destruct (valid_action action); simpl; [|by intros [= <-]].
  destruct (isReady _); simpl.
  - pose proof (resolveRound_lines (write_actions b (<[playerId:=Some action]> (actions b)))
                  r) as HL.
    destruct (resolveRound _ r) as [[[log|] b2] r2]; simpl in *; [|done].
    intros [= <-]. simpl. by apply HL.
  - destruct (getOpponent _ _); [|done]. intros [= <-]. simpl.
    by destruct (truthy _).
Qed.

(** C9.  For combatants that start with non-negative statistics and full hp:
    after every sequence of [setAction] calls, under every random source, the
    two combatants are the initial ones up to their hp and each hp lies
    between 0 and maxHp; every damage [calcDamage] computes for either of
    them as attacker (whatever the current hp, the defender, the declaration
    and the draws) is a non-negative integer, and so is every damage a
    further [setAction] reports in its round log. *)
Theorem hp_and_damage_bounds (a b : Combatant) (r : RNG)
    (calls : list (string * string)) (r' : RNG) :
  good_stats a → good_stats b →
  let battle := (Battle_run (Battle_new a b r).1 calls r').1 in
  playerA battle = set_hp a (hp (playerA battle)) ∧
  playerB battle = set_hp b (hp (playerB battle)) ∧
  0 <= hp (playerA battle) <= maxHp (playerA battle) ∧
  0 <= hp (playerB battle) <= maxHp (playerB battle) ∧
  (∀ h defender declaration rd,
     0 <= dmg (calcDamage (set_hp a h) defender declaration rd).1 ∧
     0 <= dmg (calcDamage (set_hp b h) defender declaration rd).1) ∧
  (∀ playerId action rd res,
     (setAction battle playerId action rd).1.1 = Return res →
     Forall (λ l, 0 <= line_damage l) (reply_lines (done_message res))).
Proof.
  intros Ha Hb. simpl.
  destruct (Battle_new_players a b r) as (HA & HB & _).
  pose proof (Battle_run_frame _ calls r' (Battle_new_wf a b r)) as (_ & FA & FB & _).
  rewrite HA in FA. rewrite HB in FB.
  assert (hp_ok (Battle_new a b r).1) as Hok.
  { unfold hp_ok. rewrite HA, HB. unfold good_stats in *. lia. }
  apply (Battle_run_hp_ok _ calls r') in Hok.
  pose proof Hok as (H1 & H2 & _).
  repeat split; try lia.
  - by apply set_hp_eq.
  - by apply set_hp_eq.
  - apply calcDamage_nonneg. simpl. apply Ha.
  - apply calcDamage_nonneg. simpl. apply Hb.
  - intros playerId action rd res. by apply setAction_lines.
Qed.

Lemma sawa2_good : good_stats sawa2.
Proof. unfold good_stats. simpl. lia. Qed.

Lemma sawa_good : good_stats sawa.
Proof. unfold good_stats. simpl. lia. Qed.

Lemma hp_and_damage_bounds_witness :
  let battle :=
    (Battle_run duel
       [("sawa_2@mastodon.social", "attack"); ("sawa_@mastodon.social", "attack")]
       (scripted [0%Q; 0%Q; 0%Q; 0%Q] 0%Q)).1 in
  hp (playerA battle) = 67 ∧ hp (playerB battle) = 60 ∧
  0 <= hp (playerA battle) <= maxHp (playerA battle) ∧
  0 <= hp (playerB battle) <= maxHp (playerB battle) ∧
  Forall (λ l, 0 <= line_damage l)
    [LineRound 1; LineDeclared "sawa" KoAttack "sawa 2" KoAttack; LineBlank;
     LineAttack "sawa 2" "sawa" 33 true None;
     LineAttack "sawa" "sawa 2" 30 true None; LineBlank;
     LineStatus {| st_nameA := "sawa"; st_hpA := 67; st_maxHpA := 100;
                   st_nameB := "sawa 2"; st_hpB := 60; st_maxHpB := 90 |};
     LinePrompt].
Proof.
  pose proof (hp_and_damage_bounds sawa2 sawa (scripted [] 0%Q)
                [("sawa_2@mastodon.social", "attack"); ("sawa_@mastodon.social", "attack")]
                (scripted [0%Q; 0%Q; 0%Q; 0%Q] 0%Q) sawa2_good sawa_good) as H.
  pose proof (hp_and_damage_bounds sawa2 sawa (scripted [] 0%Q)
                [("sawa_2@mastodon.social", "attack")]
                (scripted [] 0%Q) sawa2_good sawa_good) as H'.
  cbv zeta in *. destruct H as (_ & _ & HA & HB & _).
  destruct H' as (_ & _ & _ & _ & _ & HL).
  split; [reflexivity|]. split; [reflexivity|]. split; [exact HA|].
  split; [exact HB|].
  apply (HL "sawa_@mastodon.social" "attack" (scripted [0%Q; 0%Q; 0%Q; 0%Q] 0%Q)
            {| done := true;
               done_message := MsgRound
                 [LineRound 1; LineDeclared "sawa" KoAttack "sawa 2" KoAttack;
                  LineBlank; LineAttack "sawa 2" "sawa" 33 true None;
                  LineAttack "sawa" "sawa 2" 30 true None; LineBlank;
                  LineStatus {| st_nameA := "sawa"; st_hpA := 67; st_maxHpA := 100;
                                st_nameB := "sawa 2"; st_hpB := 60; st_maxHpB := 90 |};
                  LinePrompt] |}).
  vm_compute. exact eq_refl.
Defined.

(** ** Battle keys *)

Lemma makeBattleId_sym a b : makeBattleId a b = makeBattleId b a.
Proof.
  unfold makeBattleId, String.ltb.
  rewrite (String.compare_antisym b a).
  destruct (String.compare a b) eqn:E; simpl; try done.
  apply String.compare_eq_iff in E. by subst.
Qed.

Lemma append_nonempty (s t : string) : t ≠ "" → s +:+ t ≠ "".
Proof. destruct s; [done|]. simpl. discriminate. Qed.

Lemma makeBattleId_nonempty a b : makeBattleId a b ≠ "".
Proof.
  unfold makeBattleId. destruct (String.ltb b a); by apply append_nonempty.
Qed.

(** ** The registry *)

Lemma registry_inv_new : registry_inv BattleManager_new.
Proof. split; simpl; intros *; by rewrite lookup_empty. Qed.

Lemma startBattle_refused m charA charB r :
  is_Some (battlesById m !! makeBattleId (id charA) (id charB)) →
  startBattle m charA charB r =
    ({| start_ok := false; start_battleId := makeBattleId (id charA) (id charB);
        start_message := MsgAlreadyInProgress |}, m, r).
Proof. intros H. unfold startBattle. by rewrite bool_decide_eq_true_2. Qed.

Lemma startBattle_accepted m charA charB r :
  battlesById m !! makeBattleId (id charA) (id charB) = None →
  battleIdByPlayer m !! id charA = None →
  battleIdByPlayer m !! id charB = None →
  (startBattle m charA charB r).1.1 =
    {| start_ok := true; start_battleId := makeBattleId (id charA) (id charB);
       start_message :=
         MsgIntro (name charA) (name charB)
                  (name (player (Battle_new charA charB r).1
                                (turnOrder (Battle_new charA charB r).1).1))
                  (statusLine (Battle_new charA charB r).1) |} ∧
  (startBattle m charA charB r).1.2 =
    {| battlesById :=
         <[makeBattleId (id charA) (id charB) := (Battle_new charA charB r).1]>
           (battlesById m);
       battleIdByPlayer :=
         <[id charB := makeBattleId (id charA) (id charB)]>
           (<[id charA := makeBattleId (id charA) (id charB)]> (battleIdByPlayer m)) |}.
Proof.
  intros Hk HA HB. unfold startBattle.
  rewrite !bool_decide_eq_false_2 by (rewrite ?Hk, ?HA, ?HB; by intros [? ?]).
  simpl. destruct (Battle_new_players charA charB r) as (PA & PB & _).
  destruct (Battle_new charA charB r) as [battle r1]. simpl in *. by subst.
Qed.

Lemma startBattle_inv m charA charB r :
  registry_inv m → registry_inv (startBattle m charA charB r).1.2.
Proof.
  intros [Hp Hb].
  destruct (battlesById m !! makeBattleId (id charA) (id charB)) eqn:Hk.
  { by rewrite startBattle_refused by eauto. }
  destruct (battleIdByPlayer m !! id charA) eqn:HA.
  { unfold startBattle. rewrite Hk, HA.
    rewrite bool_decide_eq_false_2 by by intros [? ?].
    rewrite (bool_decide_eq_true_2 (is_Some (Some _))) by eauto. done. }
  destruct (battleIdByPlayer m !! id charB) eqn:HB.
  { unfold startBattle. rewrite Hk, HA, HB.
    rewrite bool_decide_eq_false_2 by by intros [? ?].
    rewrite bool_decide_eq_false_2 by by intros [? ?].
    rewrite (bool_decide_eq_true_2 (is_Some (Some _))) by eauto. done. }
  destruct (startBattle_accepted m charA charB r Hk HA HB) as [_ ->].
  destruct (Battle_new_players charA charB r) as (PA & PB & PF & _).
  pose proof (Battle_new_wf charA charB r) as Hwf.
  set (k := makeBattleId (id charA) (id charB)) in *.
  set (battle := (Battle_new charA charB r).1) in *.
  split; simpl.
  - intros acct k' Hacct.
    destruct (decide (acct = id charB)) as [->|HnB].
    { rewrite lookup_insert_eq in Hacct. injection Hacct as <-.
      exists battle. rewrite lookup_insert_eq, PB. auto. }
    rewrite lookup_insert_ne in Hacct by done.
    destruct (decide (acct = id charA)) as [->|HnA].
    { rewrite lookup_insert_eq in Hacct. injection Hacct as <-.
      exists battle. rewrite lookup_insert_eq, PA. auto. }
    rewrite lookup_insert_ne in Hacct by done.
    destruct (Hp _ _ Hacct) as (b & Hbk & Hid).
    exists b. split; [|done]. rewrite lookup_insert_ne; [done|]. congruence.
  - intros k' b' Hk'.
    destruct (decide (k' = k)) as [->|Hne].
    { rewrite lookup_insert_eq in Hk'. injection Hk' as <-.
      rewrite PA, PB. repeat split; try done.
      - destruct (decide (id charA = id charB)) as [->|];
          [by rewrite lookup_insert_eq
          |by rewrite lookup_insert_ne, lookup_insert_eq].
      - by rewrite lookup_insert_eq. }
    rewrite lookup_insert_ne in Hk' by done.
    destruct (Hb _ _ Hk') as (Hf & Hw & Hkey & HpA & HpB).
    repeat split; try done.
    + rewrite !lookup_insert_ne; [done|congruence..].
    + rewrite !lookup_insert_ne; [done|congruence..].
Qed.

Lemma findBattleForPlayer_Some m acct battle :
  findBattleForPlayer m acct = Some battle →
  ∃ k, battleIdByPlayer m !! acct = Some k ∧ k ≠ "" ∧
       battlesById m !! k = Some battle.
Proof.
  unfold findBattleForPlayer. destruct (battleIdByPlayer m !! acct) as [k|]; [|done].
  case_bool_decide; [done|]. eauto.
Qed.

Lemma findBattleForPlayer_inv m acct k :
  registry_inv m → battleIdByPlayer m !! acct = Some k →
  ∃ battle, findBattleForPlayer m acct = Some battle ∧
            battlesById m !! k = Some battle ∧ k ≠ "" ∧ battle_wf battle ∧
            isFinished battle = false.
Proof.
  intros [Hp Hb] Hk. destruct (Hp _ _ Hk) as (b & Hbk & _).
  destruct (Hb _ _ Hbk) as (Hf & Hwf & Hkey & _).
  exists b. unfold findBattleForPlayer. rewrite Hk.
  assert (k ≠ "") by (rewrite Hkey; apply makeBattleId_nonempty).
  by rewrite bool_decide_eq_false_2.
Qed.

(** [submitAction] for a player whose battle is found and well formed. *)
Lemma submitAction_found m acct action r k battle :
  battleIdByPlayer m !! acct = Some k → k ≠ "" →
  battlesById m !! k = Some battle → battle_wf battle →
  ∃ res,
    (setAction battle acct action r).1.1 = Return res ∧
    submitAction m acct action r =
      (Return {| ok := true; message := done_message res |},
       if isFinished (setAction battle acct action r).1.2 then
         {| battlesById := delete k (battlesById m);
            battleIdByPlayer :=
              delete (id (playerB battle))
                     (delete (id (playerA battle)) (battleIdByPlayer m)) |}
       else
         {| battlesById := <[k := (setAction battle acct action r).1.2]> (battlesById m);
            battleIdByPlayer := battleIdByPlayer m |},
       (setAction battle acct action r).2).
Proof.
  intros Hk Hne Hbk Hwf.
  destruct (setAction_returns battle acct action r Hwf) as [res Hres].
  pose proof (setAction_frame battle acct action r Hwf) as F.
  exists res. split; [done|].
  unfold submitAction, findBattleForPlayer. rewrite Hk.
  rewrite bool_decide_eq_false_2 by done. rewrite Hbk.
  destruct (setAction battle acct action r) as [[res' b1] r1]. simpl in *.
  subst res'. unfold store_found. rewrite Hk.
  destruct (isFinished b1); [|done].
  unfold cleanup. simpl. rewrite Hk.
  rewrite bool_decide_eq_false_2 by done.
  rewrite delete_insert_eq.
  by rewrite (same_frame_id_A _ _ F), (same_frame_id_B _ _ F).
Qed.

Lemma submitAction_inv m acct action r :
  registry_inv m → registry_inv (submitAction m acct action r).1.2.
Proof.
  intros Hinv.
  destruct (battleIdByPlayer m !! acct) as [k|] eqn:Hk; cycle 1.
  { unfold submitAction, findBattleForPlayer. by rewrite Hk. }
  destruct (findBattleForPlayer_inv m acct k Hinv Hk)
    as (battle & _ & Hbk & Hne & Hwf & Hlive).
  destruct (submitAction_found m acct action r k battle Hk Hne Hbk Hwf)
    as (res & _ & ->). simpl.
  pose proof (setAction_frame battle acct action r Hwf) as F.
  pose proof (setAction_wf battle acct action r Hwf) as Hwf1.
  set (b1 := (setAction battle acct action r).1.2) in *.
  destruct Hinv as [Hp Hb].
  destruct (Hb _ _ Hbk) as (_ & _ & Hkey & HpA & HpB).
  destruct (isFinished b1) eqn:Hfin; split; simpl.
  - (* finished: players of other battles stay *)
    intros acct' k' Hacct'.
    apply lookup_delete_Some in Hacct' as [HnB Hacct'].
    apply lookup_delete_Some in Hacct' as [HnA Hacct'].
    destruct (Hp _ _ Hacct') as (b' & Hb'k & Hid).
    exists b'. split; [|done].
    rewrite lookup_delete_ne; [done|]. intros <-. simplify_eq.
    destruct Hid; congruence.
  - intros k' b' Hk'.
    apply lookup_delete_Some in Hk' as [Hnk Hk'].
    destruct (Hb _ _ Hk') as (Hf & Hw & Hkey' & HpA' & HpB').
    repeat split; try done.
    + rewrite !lookup_delete_ne; [done|congruence..].
    + rewrite !lookup_delete_ne; [done|congruence..].
  - (* still live: the battle is replaced in place *)
    intros acct' k' Hacct'.
    destruct (Hp _ _ Hacct') as (b' & Hb'k & Hid).
    destruct (decide (k' = k)) as [->|Hnk].
    + exists b1. rewrite lookup_insert_eq. split; [done|]. simplify_eq.
      by rewrite (same_frame_id_A _ _ F), (same_frame_id_B _ _ F).
    + exists b'. by rewrite lookup_insert_ne.
  - intros k' b' Hk'.
    destruct (decide (k' = k)) as [->|Hnk].
    + rewrite lookup_insert_eq in Hk'. injection Hk' as <-.
      rewrite (same_frame_id_A _ _ F), (same_frame_id_B _ _ F). done.
    + rewrite lookup_insert_ne in Hk' by done. by apply Hb.
Qed.

Lemma serve_inv m q r : registry_inv m → registry_inv (serve m q r).1.
Proof.
  intros Hinv. destruct q as [charA charB|acct action]; simpl.
  - pose proof (startBattle_inv m charA charB r Hinv).
    by destruct (startBattle m charA charB r) as [[? ?] ?].
  - pose proof (submitAction_inv m acct action r Hinv).
    by destruct (submitAction m acct action r) as [[? ?] ?].
Qed.

Lemma serve_all_inv m qs r : registry_inv m → registry_inv (serve_all m qs r).1.
Proof.
  revert m r. induction qs as [|q qs IH]; intros m r Hinv; [done|].
  simpl. pose proof (serve_inv m q r Hinv).
  destruct (serve m q r) as [m1 r1]. by apply IH.
Qed.

Lemma reachable_inv qs r : registry_inv (serve_all BattleManager_new qs r).1.
Proof. apply serve_all_inv, registry_inv_new. Qed.

(** C3.  The battle key does not depend on the order of the two identities;
    a [startBattle] (in either order) for a pair whose key is registered is
    refused and leaves registry and random source as they were; and in every
    registry the manager can reach, two registered battles between the same
    unordered pair of identities are one battle under one key. *)
Theorem one_battle_per_pair (A B : string) (charA charB : Combatant)
    (m : BattleManager) (r : RNG) (qs : list request) (r0 : RNG) :
  makeBattleId A B = makeBattleId B A ∧
  (is_Some (battlesById m !! makeBattleId (id charA) (id charB)) →
     startBattle m charA charB r =
       ({| start_ok := false; start_battleId := makeBattleId (id charA) (id charB);
           start_message := MsgAlreadyInProgress |}, m, r) ∧
     startBattle m charB charA r =
       ({| start_ok := false; start_battleId := makeBattleId (id charA) (id charB);
           start_message := MsgAlreadyInProgress |}, m, r)) ∧
  (∀ k1 k2 b1 b2,
     battlesById (serve_all BattleManager_new qs r0).1 !! k1 = Some b1 →
     battlesById (serve_all BattleManager_new qs r0).1 !! k2 = Some b2 →
     (id (playerA b1) = id (playerA b2) ∧ id (playerB b1) = id (playerB b2)) ∨
     (id (playerA b1) = id (playerB b2) ∧ id (playerB b1) = id (playerA b2)) →
     k1 = k2 ∧ b1 = b2).
Proof.
  split; [apply makeBattleId_sym|]. split.
  - intros Hk. split; [by apply startBattle_refused|].
    rewrite (makeBattleId_sym (id charA) (id charB)) in *.
    by apply startBattle_refused.
  - intros k1 k2 b1 b2 H1 H2 Hpair.
    destruct (reachable_inv qs r0) as [_ Hb].
    destruct (Hb _ _ H1) as (_ & _ & Hk1 & _).
    destruct (Hb _ _ H2) as (_ & _ & Hk2 & _).
    assert (k1 = k2) as ->.
    { rewrite Hk1, Hk2. destruct Hpair as [[-> ->]|[-> ->]];
        [done|apply makeBattleId_sym]. }
    split; [done|congruence].
Qed.

Lemma arena_lookup :
  battlesById arena !! makeBattleId "frail@mastodon.social" "sawa_2@mastodon.social"
    = Some arena_battle.
Proof. vm_compute. exact eq_refl. Qed.

Lemma one_battle_per_pair_witness :
  makeBattleId "sawa_@mastodon.social" "sawa_2@mastodon.social"
    = "sawa_2@mastodon.social__sawa_@mastodon.social" ∧
  makeBattleId "sawa_2@mastodon.social" "sawa_@mastodon.social"
    = "sawa_2@mastodon.social__sawa_@mastodon.social" ∧
  (startBattle arena frail sawa2 (scripted [] 0%Q)).1.2 = arena ∧
  start_ok (startBattle arena frail sawa2 (scripted [] 0%Q)).1.1 = false ∧
  (startBattle arena sawa2 frail (scripted [] 0%Q)).1.2 = arena.
Proof.
  destruct (one_battle_per_pair "sawa_@mastodon.social" "sawa_2@mastodon.social"
              frail sawa2 arena (scripted [] 0%Q) [] (scripted [] 0%Q))
    as (Hsym & Hrefuse & _).
  destruct Hrefuse as [H1 H2].
  { exists arena_battle. exact arena_lookup. }
  split; [reflexivity|]. split; [by rewrite <- Hsym|].
  rewrite H1, H2. simpl. repeat split.
Defined.

(** C5.  In every registry the manager can reach: an identity is in the
    participant map exactly when it is part of one, and only one, registered
    non-finished battle; and when an accepted [submitAction] finishes the
    battle, the registry it returns holds neither participant nor the battle
    key, so that a [startBattle] between the same two identities (in either
    order) is accepted at once. *)
Theorem registry_invariant (qs : list request) (r0 : RNG) :
  let m := (serve_all BattleManager_new qs r0).1 in
  (∀ acct,
     is_Some (battleIdByPlayer m !! acct) ↔
     ∃ k b, fights_in m acct k b ∧
            ∀ k' b', fights_in m acct k' b' → k' = k ∧ b' = b) ∧
  (∀ acct action r battle,
     findBattleForPlayer m acct = Some battle →
     isFinished (setAction battle acct action r).1.2 = true →
     let m' := (submitAction m acct action r).1.2 in
     battleIdByPlayer m' !! id (playerA battle) = None ∧
     battleIdByPlayer m' !! id (playerB battle) = None ∧
     battlesById m' !! makeBattleId (id (playerA battle)) (id (playerB battle)) = None ∧
     ∀ charA charB r',
       (id charA = id (playerA battle) ∧ id charB = id (playerB battle)) ∨
       (id charA = id (playerB battle) ∧ id charB = id (playerA battle)) →
       start_ok (startBattle m' charA charB r').1.1 = true).
Proof.
  simpl. pose proof (reachable_inv qs r0) as Hinv.
  set (m := (serve_all BattleManager_new qs r0).1) in *.
  split.
  - intros acct. destruct Hinv as [Hp Hb]. split.
    + intros [k Hk]. destruct (Hp _ _ Hk) as (b & Hbk & Hid).
      destruct (Hb _ _ Hbk) as (Hf & _).
      exists k, b. split; [done|].
      intros k' b' (Hbk' & _ & Hid').
      destruct (Hb _ _ Hbk') as (_ & _ & _ & HA' & HB').
      assert (k' = k) as -> by (destruct Hid' as [->| ->]; congruence).
      split; [done|congruence].
    + intros (k & b & (Hbk & _ & Hid) & _).
      destruct (Hb _ _ Hbk) as (_ & _ & _ & HA & HB).
      destruct Hid as [->| ->]; eauto.
  - intros acct action r battle Hfind Hfin.
    destruct (findBattleForPlayer_Some _ _ _ Hfind) as (k & Hk & Hne & Hbk).
    destruct (Hinv) as [Hp Hb].
    destruct (Hb _ _ Hbk) as (_ & Hwf & Hkey & _).
    destruct (submitAction_found m acct action r k battle Hk Hne Hbk Hwf)
      as (res & _ & ->).
    rewrite Hfin. simpl. rewrite <- Hkey.
    assert (∀ x (M : gmap string string),
              delete (id (playerB battle)) (delete (id (playerA battle)) M) !! x = None
              ↔ x = id (playerA battle) ∨ x = id (playerB battle) ∨ M !! x = None)
      as Hdel.
    { intros x M. rewrite !lookup_delete_None. naive_solver. }
    repeat split.
    + apply Hdel. auto.
    + apply Hdel. auto.
    + by rewrite lookup_delete_eq.
    + intros charA charB r' Hids.
      refine (f_equal start_ok (proj1 (startBattle_accepted _ charA charB r' _ _ _)));
        simpl.
      * replace (makeBattleId (id charA) (id charB)) with k.
        { by rewrite lookup_delete_eq. }
        rewrite Hkey. destruct Hids as [[-> ->]|[-> ->]];
          [done|apply makeBattleId_sym].
      * apply Hdel. destruct Hids as [[-> _]|[-> _]]; auto.
      * apply Hdel. destruct Hids as [[_ ->]|[_ ->]]; auto.
Qed.

Lemma arena_find :
  findBattleForPlayer arena "frail@mastodon.social" = Some arena_battle.
Proof. vm_compute. exact eq_refl. Qed.

Lemma registry_invariant_witness :
  let m' := (submitAction arena "frail@mastodon.social" "attack"
                          (scripted [0%Q; (1 # 2)%Q] 0%Q)).1.2 in
  (∃ k b, fights_in arena "frail@mastodon.social" k b ∧
          ∀ k' b', fights_in arena "frail@mastodon.social" k' b' →
                   k' = k ∧ b' = b) ∧
  battleIdByPlayer m' !! "sawa_2@mastodon.social" = None ∧
  battleIdByPlayer m' !! "frail@mastodon.social" = None ∧
  start_ok (startBattle m' frail sawa2 (scripted [] 0%Q)).1.1 = true.
Proof.
  pose proof (registry_invariant
                [Start sawa2 frail; Action "sawa_2@mastodon.social" "attack"]
                (scripted [] 0%Q)) as [Hiff Hfree].
  fold arena in Hiff, Hfree.
  destruct (Hfree "frail@mastodon.social" "attack"
                  (scripted [0%Q; (1 # 2)%Q] 0%Q) arena_battle arena_find)
    as (HA & HB & _ & Hstart).
  { vm_compute. exact eq_refl. }
  split; [|split; [exact HA|split; [exact HB|]]].
  - apply Hiff. compute_done.
  - apply Hstart. right. split; reflexivity.
Defined.

(** C10.  In every registry the manager can reach, a caller who is in the
    participant map gets [ok = true] from [submitAction] whatever
    [setAction] answered: the result is exactly [ok = true] with the message
    of [setAction], its [done] flag dropped and nothing about the end of the
    battle or a winner added.  For an action outside attack/defend/evade the
    message is the invalid-action rejection, and registry and random source
    are unchanged. *)
Theorem submitAction_always_ok (qs : list request) (r0 : RNG)
    (acct action : string) (r : RNG) :
  let m := (serve_all BattleManager_new qs r0).1 in
  is_Some (battleIdByPlayer m !! acct) →
  ∃ battle res,
    findBattleForPlayer m acct = Some battle ∧
    (setAction battle acct action r).1.1 = Return res ∧
    (submitAction m acct action r).1.1 =
      Return {| ok := true; message := done_message res |} ∧
    (valid_action action = false →
       res = {| done := false; done_message := MsgInvalidAction |} ∧
       submitAction m acct action r =
         (Return {| ok := true; message := MsgInvalidAction |}, m, r)).
Proof.
  simpl. pose proof (reachable_inv qs r0) as Hinv.
  set (m := (serve_all BattleManager_new qs r0).1) in *.
  intros [k Hk].
  destruct (findBattleForPlayer_inv m acct k Hinv Hk)
    as (battle & Hfind & Hbk & Hne & Hwf & Hlive).
  destruct (submitAction_found m acct action r k battle Hk Hne Hbk Hwf)
    as (res & Hres & Hsub).
  exists battle, res.
  split; [done|]. split; [done|]. split; [by rewrite Hsub|].
  intros Hv. destruct Hinv as [Hp _].
  destruct (Hp _ _ Hk) as (b' & Hb'k & Hid). simplify_eq.
  assert (is_Some (actions battle !! acct)) as Hs by by apply battle_wf_lookup.
  rewrite Hsub. rewrite (setAction_invalid battle acct action r Hlive Hs Hv) in *.
  simpl in *. simplify_eq. split; [done|].
  rewrite Hlive, insert_id by done. by destruct m.
Qed.

Lemma submitAction_always_ok_witness :
  submitAction arena "frail@mastodon.social" "dance" (scripted [] 0%Q) =
    (Return {| ok := true; message := MsgInvalidAction |}, arena, scripted [] 0%Q).
Proof.
  destruct (submitAction_always_ok
              [Start sawa2 frail; Action "sawa_2@mastodon.social" "attack"]
              (scripted [] 0%Q) "frail@mastodon.social" "dance" (scripted [] 0%Q))
    as (battle & res & _ & _ & _ & Hinvalid).
  { compute_done. }
  apply Hinvalid. reflexivity.
Defined.

(** * Further properties of the source *)

(** ** Chances *)

Lemma lt_num_true x p : lt_num x p = true ↔ (x < p)%Q.
Proof.
  unfold lt_num. rewrite negb_true_iff, <- not_true_iff_false, Qle_bool_iff.
  split; [apply Qnot_le_lt|apply Qlt_not_le].
Qed.

Lemma lt_num_false x p : lt_num x p = false ↔ (p <= x)%Q.
Proof. unfold lt_num. by rewrite negb_false_iff, Qle_bool_iff. Qed.

Lemma clamp_bounds lo hi x : (lo <= hi)%Q → (lo <= clamp lo hi x)%Q ∧ (clamp lo hi x <= hi)%Q.
Proof.
  intros H. unfold clamp. split; [apply Q.le_max_l|].
  apply Q.max_lub; [done|apply Q.le_min_l].
Qed.

Lemma clamp_mono lo hi x y : (x <= y)%Q → (clamp lo hi x <= clamp lo hi y)%Q.
Proof.
  intros H. unfold clamp. by apply Q.max_le_compat_l, Q.min_le_compat_l.
Qed.

Lemma hitChance_bounds attacker defender :
  (1 # 10 <= hitChance attacker defender)%Q ∧ (hitChance attacker defender <= 19 # 20)%Q.
Proof. by apply clamp_bounds. Qed.

Lemma hitChance_mono attacker attacker' defender :
  agi attacker <= agi attacker' →
  (hitChance attacker defender <= hitChance attacker' defender)%Q.
Proof.
  intros H. apply clamp_mono. apply Qplus_le_r.
  apply Qmult_le_compat_r; [|done].
  rewrite <- Zle_Qle. lia.
Qed.

(** X1.  [isAttackHit] consumes one draw.  Whatever the two agilities, the
    attack hits on a draw below 0.10 and misses on a draw of 0.95 or more;
    and on the same draw a more agile attacker hits whenever a less agile
    one does. *)
Theorem isAttackHit_clamped (attacker defender : Combatant) (r : RNG) :
  (isAttackHit attacker defender r).2 = advance 1 r ∧
  ((next_draw r < 1 # 10)%Q → (isAttackHit attacker defender r).1 = true) ∧
  ((19 # 20 <= next_draw r)%Q → (isAttackHit attacker defender r).1 = false) ∧
  (∀ attacker', agi attacker <= agi attacker' →
     (isAttackHit attacker defender r).1 = true →
     (isAttackHit attacker' defender r).1 = true).
Proof.
  unfold isAttackHit. rewrite Math_random_eq. simpl.
  destruct (hitChance_bounds attacker defender) as [Hlo Hhi].
  split; [done|]. split; [|split].
  - intros H. apply lt_num_true. by eapply Qlt_le_trans.
  - intros H. apply lt_num_false. by eapply Qle_trans.
  - intros attacker' Hagi. rewrite !lt_num_true. intros H.
    eapply Qlt_le_trans; [exact H|by apply hitChance_mono].
Qed.

Lemma isAttackHit_clamped_witness :
  (isAttackHit frail sawa (scripted [(1 # 20)%Q] 0%Q)).1 = true ∧
  (isAttackHit sawa frail (scripted [(19 # 20)%Q] 0%Q)).1 = false ∧
  (isAttackHit sawa sawa2 (scripted [(3 # 4)%Q] 0%Q)).1 = true.
Proof.
  split; [|split].
  - apply (proj1 (proj2 (isAttackHit_clamped frail sawa
                           (scripted [(1 # 20)%Q] 0%Q)))).
    by vm_compute.
  - apply (proj1 (proj2 (proj2 (isAttackHit_clamped sawa frail
                                  (scripted [(19 # 20)%Q] 0%Q))))).
    by vm_compute.
  - apply (proj2 (proj2 (proj2 (isAttackHit_clamped sawa2 sawa2
                                  (scripted [(3 # 4)%Q] 0%Q)))) sawa).
    + simpl. lia.
    + reflexivity.
Defined.

(** X2.  [tryEvade] and [tryDefend] consume one draw each.  Whatever the
    defender's agility or defence, the attempt succeeds on a draw below 0.05
    and fails on a draw of 0.60 or more. *)
Theorem tryEvade_tryDefend_clamped (defender : Combatant) (r : RNG) :
  (tryEvade defender r).2 = advance 1 r ∧
  (tryDefend defender r).2 = advance 1 r ∧
  ((next_draw r < 1 # 20)%Q →
     (tryEvade defender r).1 = true ∧ (tryDefend defender r).1 = true) ∧
  ((3 # 5 <= next_draw r)%Q →
     (tryEvade defender r).1 = false ∧ (tryDefend defender r).1 = false).
Proof.
  unfold tryEvade, tryDefend. rewrite Math_random_eq. simpl.
  destruct (clamp_bounds (1 # 20) (3 # 5) (inject_Z (agi defender) / 100)%Q)
    as [Elo Ehi]; [done|].
  destruct (clamp_bounds (1 # 20) (3 # 5) (inject_Z (def defender) / 100)%Q)
    as [Dlo Dhi]; [done|].
  split; [done|]. split; [done|]. split.
  - intros H. split; apply lt_num_true; by eapply Qlt_le_trans.
  - intros H. split; apply lt_num_false; by eapply Qle_trans.
Qed.

Lemma tryEvade_tryDefend_clamped_witness :
  (tryEvade frail (scripted [(1 # 25)%Q] 0%Q)).1 = true ∧
  (tryDefend frail (scripted [(1 # 25)%Q] 0%Q)).1 = true ∧
  (tryEvade sawa (scripted [(3 # 5)%Q] 0%Q)).1 = false ∧
  (tryDefend sawa (scripted [(3 # 5)%Q] 0%Q)).1 = false.
Proof.
  destruct (tryEvade_tryDefend_clamped frail (scripted [(1 # 25)%Q] 0%Q))
    as (_ & _ & Hlow & _).
  destruct (tryEvade_tryDefend_clamped sawa (scripted [(3 # 5)%Q] 0%Q))
    as (_ & _ & _ & Hhigh).
  destruct Hlow as [H1 H2]; [by vm_compute|].
  destruct Hhigh as [H3 H4]; [by vm_compute|].
  by repeat split.
Defined.

(** ** Damage and single actions *)

Lemma floor_times_1_5_ge d : 0 <= d → d <= floor_times_1_5 d.
Proof. intros H. unfold floor_times_1_5. apply Z.div_le_lower_bound; lia. Qed.

(** X3.  [calcDamage] reports a crit exactly when the first draw is below the
    crit probability; it consumes one draw, or two exactly when there is no
    crit and the defender declared Defend.  An attacker without a crit value
    never crits on a draw that is not negative, and for non-negative attack
    and defence no hit deals more than [floor (atk * 1.5)]. *)
Theorem calcDamage_draws_and_cap (attacker defender : Combatant)
    (defenderAction : option string) (r : RNG) :
  let res := calcDamage attacker defender defenderAction r in
  crit_hit res.1 = lt_num (next_draw r) (critProbability attacker) ∧
  res.2 = (if crit_hit res.1 then advance 1 r
           else if bool_decide (defenderAction = Some ACTION_DEFEND)
                then advance 2 r else advance 1 r) ∧
  (crit attacker = None → (0 <= next_draw r)%Q → crit_hit res.1 = false) ∧
  (0 <= atk attacker → 0 <= def defender →
     dmg res.1 <= floor_times_1_5 (atk attacker)).
Proof.
  simpl.
  assert (crit_hit (calcDamage attacker defender defenderAction r).1 =
          lt_num (next_draw r) (critProbability attacker)) as Hcrit.
  { unfold calcDamage, tryDefend. rewrite !Math_random_eq.
    repeat case_match; simplify_eq/=; done. }
  split; [done|]. split; [|split].
  - unfold calcDamage, tryDefend. rewrite !Math_random_eq.
    repeat case_match; simplify_eq/=; by rewrite ?advance_advance.
  - intros Hnone Hdraw. rewrite Hcrit. apply lt_num_false.
    unfold critProbability. by rewrite Hnone.
  - intros Hatk Hdef. pose proof (floor_times_1_5_ge _ Hatk).
    unfold calcDamage, tryDefend. rewrite !Math_random_eq.
    repeat case_match; simplify_eq/=; lia.
Qed.

Lemma calcDamage_draws_and_cap_witness :
  crit_hit (calcDamage frail sawa (Some ACTION_DEFEND) (scripted [] 0%Q)).1 = false ∧
  dmg (calcDamage sawa2 sawa None (scripted [(1 # 2)%Q] 0%Q)).1 <= 30.
Proof.
  destruct (calcDamage_draws_and_cap frail sawa (Some ACTION_DEFEND)
              (scripted [] 0%Q)) as (_ & _ & Hnone & _).
  destruct (calcDamage_draws_and_cap sawa2 sawa None
              (scripted [(1 # 2)%Q] 0%Q)) as (_ & _ & _ & Hcap).
  split.
  - apply Hnone; [reflexivity|by vm_compute].
  - apply Hcap; simpl; lia.
Defined.

Lemma processSingleAction_passive b attacker defender r :
  slot b (id (player b attacker)) ≠ Some ACTION_ATTACK →
  (processSingleAction b attacker defender r).1.2 = b ∧
  (processSingleAction b attacker defender r).2 = r.
Proof. intros Hna. unfold processSingleAction. repeat case_bool_decide; done. Qed.

(** X4.  An action that is not Attack (Defend, Evade, or an unset slot) has no
    effect of its own: the battle and the random source are untouched.  An
    Attack that is not evaded and whose hit roll fails leaves the battle
    untouched too. *)
Theorem processSingleAction_no_effect (b : Battle) (attacker defender : pref)
    (r : RNG) :
  (slot b (id (player b attacker)) ≠ Some ACTION_ATTACK →
     (processSingleAction b attacker defender r).1.2 = b ∧
     (processSingleAction b attacker defender r).2 = r) ∧
  (slot b (id (player b attacker)) = Some ACTION_ATTACK →
     slot b (id (player b defender)) ≠ Some ACTION_EVADE →
     (isAttackHit (player b attacker) (player b defender) r).1 = false →
     processSingleAction b attacker defender r =
       ([LineMiss (name (player b attacker))], b, advance 1 r)).
Proof.
  split.
  - apply processSingleAction_passive.
  - intros Ha Hne. unfold processSingleAction, isAttackHit.
    rewrite Ha, !Math_random_eq. simpl.
    rewrite (bool_decide_eq_false_2 _ Hne). simpl.
    unfold next_draw. by intros ->.
Qed.

Lemma processSingleAction_no_effect_witness :
  (processSingleAction (declared duel (Some ACTION_DEFEND) (Some ACTION_ATTACK))
                       PlayerA PlayerB (scripted [] 0%Q)).1.2
    = declared duel (Some ACTION_DEFEND) (Some ACTION_ATTACK) ∧
  processSingleAction (declared duel (Some ACTION_DEFEND) (Some ACTION_ATTACK))
                      PlayerB PlayerA (scripted [(19 # 20)%Q] 0%Q)
    = ([LineMiss "sawa 2"],
       declared duel (Some ACTION_DEFEND) (Some ACTION_ATTACK),
       advance 1 (scripted [(19 # 20)%Q] 0%Q)).
Proof.
  split.
  - apply (proj1 (processSingleAction_no_effect
                    (declared duel (Some ACTION_DEFEND) (Some ACTION_ATTACK))
                    PlayerA PlayerB (scripted [] 0%Q))).
    compute_done.
  - apply (proj2 (processSingleAction_no_effect
                    (declared duel (Some ACTION_DEFEND) (Some ACTION_ATTACK))
                    PlayerB PlayerA (scripted [(19 # 20)%Q] 0%Q)));
      [reflexivity|compute_done|reflexivity].
Defined.

(** X5.  [processSingleAction] writes nothing but the defender's hp: slots,
    round, flags and turn order stay, and so does the attacker.  For a
    non-negative attack value and a defender whose hp is not negative, the
    defender's hp does not grow and does not fall below 0. *)
Theorem processSingleAction_only_defender (b : Battle) (attacker defender : pref)
    (r : RNG) :
  let b' := (processSingleAction b attacker defender r).1.2 in
  actions b' = actions b ∧ round b' = round b ∧ turnOrder b' = turnOrder b ∧
  isFinished b' = isFinished b ∧ winnerId b' = winnerId b ∧
  (attacker ≠ defender → player b' attacker = player b attacker) ∧
  player b' defender = set_hp (player b defender) (hp (player b' defender)) ∧
  (0 <= atk (player b attacker) → 0 <= hp (player b defender) →
     0 <= hp (player b' defender) <= hp (player b defender)).
Proof.
  simpl.
  destruct (processSingleAction_flags b attacker defender r) as (Ha & Hr & Hf & Hw).
  destruct (processSingleAction_frame b attacker defender r) as (Ht & _).
  repeat split; try done.
  - intros Hne.
    destruct (processSingleAction_state b attacker defender r) as [-> | [r' ->]];
      [done|]. by destruct attacker, defender.
  - destruct (processSingleAction_state b attacker defender r) as [-> | [r' ->]].
    + by destruct (player b defender).
    + by destruct defender.
  - destruct (processSingleAction_state b attacker defender r) as [-> | [r' ->]];
      [lia|]. destruct defender; simpl; lia.
  - pose proof (calcDamage_nonneg (player b attacker) (player b defender)) as Hd.
    destruct (processSingleAction_state b attacker defender r) as [-> | [r' ->]];
      [lia|].
    specialize (Hd (slot b (id (player b defender))) r' H).
    destruct defender; simpl in *; lia.
Qed.

Lemma processSingleAction_only_defender_witness :
  let b := declared duel (Some ACTION_ATTACK) (Some ACTION_DEFEND) in
  let b' := (processSingleAction b PlayerA PlayerB
               (scripted [0%Q; (1 # 2)%Q; 0%Q] 0%Q)).1.2 in
  player b' PlayerA = sawa2 ∧ hp (player b' PlayerB) = 79 ∧
  0 <= hp (player b' PlayerB) <= 90.
Proof.
  pose proof (processSingleAction_only_defender
                (declared duel (Some ACTION_ATTACK) (Some ACTION_DEFEND))
                PlayerA PlayerB (scripted [0%Q; (1 # 2)%Q; 0%Q] 0%Q)) as H.
  cbv zeta in *. destruct H as (_ & _ & _ & _ & _ & HA & _ & HB).
  split; [|split].
  - apply HA. discriminate.
  - reflexivity.
  - apply HB; simpl; lia.
Defined.

(** ** Rounds *)

Lemma spec_round_actions_passive b r :
  slot b (id (playerA b)) ≠ Some ACTION_ATTACK →
  slot b (id (playerB b)) ≠ Some ACTION_ATTACK →
  spec_round_actions b r = (b, r).
Proof.
  intros HA HB.
  assert (∀ p, slot b (id (player b p)) ≠ Some ACTION_ATTACK) as Hp
    by (by intros []).
  unfold spec_round_actions. destruct (turnOrder b) as [first second].
  destruct (processSingleAction_passive b first second r (Hp first)) as [E1 E2].
  destruct (processSingleAction b first second r) as [[l1 b1] r1].
  simpl in *. subst.
  destruct (spec_end_condition _ _); try done.
  destruct (processSingleAction_passive b second first r (Hp second)) as [E3 E4].
  destruct (processSingleAction b second first r) as [[l2 b2] r2].
  simpl in *. by subst.
Qed.

(** X6.  A round in which neither side declared Attack costs no draw and
    changes no combatant; between two standing combatants it only moves the
    battle to the next round with both slots cleared. *)
Theorem resolveRound_no_attack (b : Battle) (r : RNG) :
  slot b (id (playerA b)) ≠ Some ACTION_ATTACK →
  slot b (id (playerB b)) ≠ Some ACTION_ATTACK →
  let b' := (resolveRound b r).1.2 in
  (resolveRound b r).2 = r ∧
  playerA b' = playerA b ∧ playerB b' = playerB b ∧
  (0 < hp (playerA b) → 0 < hp (playerB b) →
     round b' = round b + 1 ∧ isFinished b' = isFinished b ∧
     slot b' (id (playerA b)) = None ∧ slot b' (id (playerB b)) = None).
Proof.
  intros HA HB. simpl.
  destruct (resolveRound_char b r) as [log ->]. simpl.
  rewrite (spec_round_actions_passive b r HA HB). simpl.
  split; [done|]. split; [by destruct (spec_end_condition _ _)|].
  split; [by destruct (spec_end_condition _ _)|].
  intros H1 H2. unfold spec_end_condition.
  rewrite !bool_decide_eq_false_2 by lia.
  unfold slot. simpl. repeat split.
  - destruct (decide (id (playerB b) = id (playerA b))) as [->|];
      [by rewrite lookup_insert_eq
      |by rewrite lookup_insert_ne, lookup_insert_eq].
  - by rewrite lookup_insert_eq.
Qed.

Lemma resolveRound_no_attack_witness :
  let b := declared duel (Some ACTION_DEFEND) (Some ACTION_EVADE) in
  (resolveRound b (scripted [] 0%Q)).2 = scripted [] 0%Q ∧
  round (resolveRound b (scripted [] 0%Q)).1.2 = 2 ∧
  playerB (resolveRound b (scripted [] 0%Q)).1.2 = sawa.
Proof.
  pose proof (resolveRound_no_attack
                (declared duel (Some ACTION_DEFEND) (Some ACTION_EVADE))
                (scripted [] 0%Q) ltac:(compute_done) ltac:(compute_done)) as H.
  cbv zeta in *. destruct H as (Hr & _ & HB & Hn).
  split; [exact Hr|]. split; [|exact HB].
  apply Hn; reflexivity.
Defined.

(** ** Outcome and hp along a battle *)

Lemma processSingleAction_attacker b a d r :
  a ≠ d → player (processSingleAction b a d r).1.2 a = player b a.
Proof.
  intros Hne.
  destruct (processSingleAction_state b a d r) as [-> | [r' ->]]; [done|].
  by destruct a, d.
Qed.

Lemma processSingleAction_order b a d r :
  turnOrder (processSingleAction b a d r).1.2 = turnOrder b.
Proof. by destruct (processSingleAction_frame b a d r) as [-> _]. Qed.

(** Between two standing combatants a round leaves at least one standing. *)
Lemma spec_round_actions_survivor b r :
  order_ok b → 0 < hp (playerA b) → 0 < hp (playerB b) →
  0 < hp (playerA (spec_round_actions b r).1) ∨
  0 < hp (playerB (spec_round_actions b r).1).
Proof.
  intros Ho HA HB. unfold spec_round_actions.
  destruct Ho as [-> | ->].
  - pose proof (processSingleAction_attacker b PlayerA PlayerB r) as Hfst.
    destruct (processSingleAction b PlayerA PlayerB r) as [[l1 b1] r1].
    simpl in Hfst. rewrite <- Hfst in HA by done.
    unfold spec_end_condition. repeat case_bool_decide; auto.
    pose proof (processSingleAction_attacker b1 PlayerB PlayerA r1) as Hsnd.
    destruct (processSingleAction b1 PlayerB PlayerA r1) as [[l2 b2] r2].
    simpl in *. rewrite Hsnd by done. right. lia.
  - pose proof (processSingleAction_attacker b PlayerB PlayerA r) as Hfst.
    destruct (processSingleAction b PlayerB PlayerA r) as [[l1 b1] r1].
    simpl in Hfst. rewrite <- Hfst in HB by done.
    unfold spec_end_condition. repeat case_bool_decide; auto.
    pose proof (processSingleAction_attacker b1 PlayerA PlayerB r1) as Hsnd.
    destruct (processSingleAction b1 PlayerA PlayerB r1) as [[l2 b2] r2].
    simpl in *. rewrite Hsnd by done. left. lia.
Qed.

(** [setAction] resolves a round only in a battle that is not finished. *)
Lemma setAction_cases b playerId action r :
  let b1 := write_actions b (<[playerId := Some action]> (actions b)) in
  (setAction b playerId action r).1.2 = b ∨
  (isFinished b = false ∧ (setAction b playerId action r).1.2 = b1) ∨
  (isFinished b = false ∧
   (setAction b playerId action r).1.2 = (resolveRound b1 r).1.2).
Proof.
  simpl. unfold setAction.
  destruct (isFinished b); [by left|].
  case_bool_decide; simpl; [|by left].
  destruct (valid_action action); simpl; [|by left].
  destruct (isReady _); simpl.
  - right; right. by destruct (resolveRound _ r) as [[[log|] b2] r2].
  - right; left. by destruct (getOpponent _ _).
Qed.

Lemma resolveRound_settled b r :
  order_ok b → isFinished b = false → settled b →
  settled (resolveRound b r).1.2.
Proof.
  intros Ho Hf Hs. unfold settled, outcome_of in Hs. rewrite Hf in Hs.
  destruct Hs as [HA HB].
  pose proof (spec_round_actions_survivor b r Ho HA HB) as Hsurv.
  destruct (spec_round_actions_flags b r) as (_ & _ & Hfin & _).
  destruct (resolveRound_char b r) as [log ->]. simpl.
  set (after := (spec_round_actions b r).1) in *.
  unfold spec_end_condition.
  repeat case_bool_decide; unfold settled, outcome_of; simpl;
    rewrite ?Hfin, ?Hf; try lia.
  - right. repeat split; lia.
  - left. repeat split; lia.
Qed.

Lemma setAction_settled b playerId action r :
  battle_wf b → order_ok b → settled b →
  settled (setAction b playerId action r).1.2.
Proof.
  intros Hwf Ho Hs.
  destruct (setAction_cases b playerId action r) as [-> | [[Hf ->] | [Hf ->]]];
    [done|done|].
  by apply resolveRound_settled.
Qed.

Lemma setAction_order_ok b playerId action r :
  battle_wf b → order_ok b → order_ok (setAction b playerId action r).1.2.
Proof.
  intros Hwf Ho. unfold order_ok.
  by destruct (setAction_frame b playerId action r Hwf) as [-> _].
Qed.

Lemma Battle_new_order_ok a b r : order_ok (Battle_new a b r).1.
Proof.
  unfold order_ok. pose proof (Battle_new_order a b r) as H.
  unfold decideOrder in H. rewrite Math_random_eq in H.
  repeat case_match; simplify_eq; auto.
Qed.

Lemma Battle_run_settled b calls r :
  battle_wf b → order_ok b → settled b → settled (Battle_run b calls r).1.
Proof.
  revert b r. induction calls as [|[playerId action] calls IH];
    intros b r Hwf Ho Hs; [done|].
  simpl.
  pose proof (setAction_wf b playerId action r Hwf).
  pose proof (setAction_order_ok b playerId action r Hwf Ho).
  pose proof (setAction_settled b playerId action r Hwf Ho Hs).
  destruct (setAction b playerId action r) as [[res b1] r1]. by apply IH.
Qed.

(** X7.  Along every battle that starts between two combatants with positive
    hp: while it is not finished both combatants have positive hp; once it is
    finished there is a winner, the winner has positive hp and the other side
    has none left.  A draw never happens. *)
Theorem battle_outcome_settled (a b : Combatant) (r : RNG)
    (calls : list (string * string)) (r' : RNG) :
  0 < hp a → 0 < hp b →
  let battle := (Battle_run (Battle_new a b r).1 calls r').1 in
  (isFinished battle = false →
     0 < hp (playerA battle) ∧ 0 < hp (playerB battle)) ∧
  (isFinished battle = true →
     (winnerId battle = Some (id (playerA battle)) ∧
      0 < hp (playerA battle) ∧ hp (playerB battle) <= 0) ∨
     (winnerId battle = Some (id (playerB battle)) ∧
      0 < hp (playerB battle) ∧ hp (playerA battle) <= 0)) ∧
  outcome_of battle ≠ Draw.
Proof.
  intros Ha Hb. simpl.
  destruct (Battle_new_players a b r) as (HA & HB & HF & _).
  assert (settled (Battle_new a b r).1) as Hs.
  { unfold settled, outcome_of. by rewrite HF, HA, HB. }
  apply (Battle_run_settled _ calls r' (Battle_new_wf a b r)
           (Battle_new_order_ok a b r)) in Hs.
  clear HA HB HF. revert Hs. unfold settled, outcome_of.
  set (battle := (Battle_run (Battle_new a b r).1 calls r').1).
  destruct (isFinished battle); [destruct (winnerId battle) as [w|]|];
    intros Hs; try done.
  split; [done|]. split; [|done].
  intros _. destruct Hs as [(-> & ? & ?)|(-> & ? & ?)]; auto.
Qed.

Lemma battle_outcome_settled_witness :
  winnerId fallen = Some "sawa_2@mastodon.social" ∧
  0 < hp (playerA fallen) ∧ hp (playerB fallen) <= 0 ∧
  0 < hp (playerA duel) ∧ 0 < hp (playerB duel).
Proof.
  pose proof (battle_outcome_settled sawa2 frail (scripted [] 0%Q)
                [("sawa_2@mastodon.social", "attack"); ("frail@mastodon.social", "attack")]
                (scripted [0%Q; (1 # 2)%Q] 0%Q) eq_refl eq_refl) as H.
  pose proof (battle_outcome_settled sawa2 sawa (scripted [] 0%Q) []
                (scripted [] 0%Q) eq_refl eq_refl) as H'.
  cbv zeta in *. destruct H as (_ & Hfin & _). destruct H' as (Hlive & _).
  fold fallen in Hfin.
  destruct Hfin as [(Hw & H1 & H2)|(Hw & _)].
  - vm_compute; exact eq_refl.
  - destruct Hlive as [H3 H4]; [vm_compute; exact eq_refl|].
    split; [vm_compute; exact eq_refl|]. split; [exact H1|].
    split; [exact H2|]. split; [exact H3|exact H4].
  - vm_compute in Hw. discriminate Hw.
Defined.

Lemma processSingleAction_decreasing b a d r p :
  hp_ok b → hp (player (processSingleAction b a d r).1.2 p) <= hp (player b p).
Proof.
  intros Hok.
  destruct (processSingleAction_state b a d r) as [-> | [r' ->]]; [lia|].
  pose proof (calcDamage_nonneg (player b a) (player b d)
                (slot b (id (player b d))) r') as Hd.
  assert (0 <= atk (player b a)) as Ha by (destruct a; apply Hok).
  assert (0 <= hp (player b d)) as Hh by (destruct d; apply Hok).
  specialize (Hd Ha). destruct p, d; simpl in *; lia.
Qed.

Lemma spec_round_actions_decreasing b r p :
  hp_ok b → hp (player (spec_round_actions b r).1 p) <= hp (player b p).
Proof.
  intros Hok. unfold spec_round_actions. destruct (turnOrder b) as [first second].
  pose proof (processSingleAction_decreasing b first second r p Hok) as D1.
  pose proof (processSingleAction_hp_ok b first second r Hok) as Hok1.
  destruct (processSingleAction b first second r) as [[l1 b1] r1]. simpl in *.
  destruct (spec_end_condition _ _); try done.
  pose proof (processSingleAction_decreasing b1 second first r1 p Hok1) as D2.
  destruct (processSingleAction b1 second first r1) as [[l2 b2] r2].
  simpl in *. lia.
Qed.

Lemma resolveRound_round b r :
  round b <= round (resolveRound b r).1.2 <= round b + 1.
Proof.
  destruct (spec_round_actions_flags b r) as (_ & Hr & _).
  destruct (resolveRound_char b r) as [log ->]. simpl.
  destruct (spec_end_condition _ _); simpl; lia.
Qed.

Lemma setAction_monotone b playerId action r :
  hp_ok b →
  let b' := (setAction b playerId action r).1.2 in
  hp (playerA b') <= hp (playerA b) ∧ hp (playerB b') <= hp (playerB b) ∧
  round b <= round b' <= round b + 1.
Proof.
  intros Hok. simpl.
  destruct (setAction_state b playerId action r) as [-> | [-> | ->]];
    [lia|simpl; lia|].
  set (b1 := write_actions b _).
  destruct (resolveRound_players b1 r) as [-> ->].
  pose proof (spec_round_actions_decreasing b1 r PlayerA Hok).
  pose proof (spec_round_actions_decreasing b1 r PlayerB Hok).
  pose proof (resolveRound_round b1 r). simpl in *. lia.
Qed.

(** X8.  In a battle whose attack values are non-negative and whose hp values
    lie between 0 and the maximum, no sequence of [setAction] calls raises
    the hp of either combatant (nothing heals), and the round counter never
    goes back and moves by at most one per call. *)
Theorem hp_and_round_monotone (b : Battle) (calls : list (string * string))
    (r : RNG) :
  hp_ok b →
  let b' := (Battle_run b calls r).1 in
  hp (playerA b') <= hp (playerA b) ∧ hp (playerB b') <= hp (playerB b) ∧
  round b <= round b' <= round b + Z.of_nat (length calls).
Proof.
  revert b r. induction calls as [|[playerId action] calls IH]; intros b r Hok.
  - simpl. lia.
  - cbn [Battle_run length].
    pose proof (setAction_monotone b playerId action r Hok) as Hm.
    pose proof (setAction_hp_ok b playerId action r Hok) as Hok1.
    destruct (setAction b playerId action r) as [[res b1] r1]. simpl in Hm, Hok1.
    specialize (IH b1 r1 Hok1). simpl in IH. lia.
Qed.

Lemma duel_hp_ok : hp_ok duel.
Proof. unfold hp_ok. simpl. lia. Qed.

Lemma hp_and_round_monotone_witness :
  let b' := (Battle_run duel
               [("sawa_2@mastodon.social", "attack"); ("sawa_@mastodon.social", "defend");
                ("sawa_@mastodon.social", "evade")]
               (scripted [0%Q; (1 # 2)%Q; 0%Q] 0%Q)).1 in
  hp (playerA b') <= 100 ∧ hp (playerB b') <= 90 ∧ 1 <= round b' <= 4.
Proof.
  apply (hp_and_round_monotone duel
           [("sawa_2@mastodon.social", "attack"); ("sawa_@mastodon.social", "defend");
            ("sawa_@mastodon.social", "evade")]
           (scripted [0%Q; (1 # 2)%Q; 0%Q] 0%Q) duel_hp_ok).
Defined.

(** X9.  On every battle the constructor and any sequence of [setAction]
    calls produce, [setAction] returns (it never raises), it never answers
    with the "both already chose" message, and its [done] flag is set exactly
    when the battle was already finished or the call resolved a round. *)
Theorem setAction_replies (a0 b0 : Combatant) (r0 : RNG)
    (calls : list (string * string)) (r1 : RNG)
    (playerId action : string) (r : RNG) :
  let b := (Battle_run (Battle_new a0 b0 r0).1 calls r1).1 in
  ∃ res,
    (setAction b playerId action r).1.1 = Return res ∧
    done_message res ≠ MsgBothChosen ∧
    (done res = true ↔
       isFinished b = true ∨ ∃ log, done_message res = MsgRound log).
Proof.
  simpl. set (b := (Battle_run (Battle_new a0 b0 r0).1 calls r1).1).
  assert (battle_wf b) as Hwf by apply Battle_run_wf, Battle_new_wf.
  destruct (isFinished b) eqn:Hf.
  { rewrite setAction_finished by done. eexists. split; [done|].
    split; [done|]. simpl. split; auto. }
  destruct (actions b !! playerId) as [x|] eqn:Hk; cycle 1.
  { rewrite setAction_stranger by done. eexists. split; [done|].
    split; [done|]. simpl. split; [done|]. intros [?|[? ?]]; done. }
  assert (is_Some (actions b !! playerId)) as Hs by eauto.
  destruct (valid_action action) eqn:Hv; cycle 1.
  { rewrite setAction_invalid by done. eexists. split; [done|].
    split; [done|]. simpl. split; [done|]. intros [?|[? ?]]; done. }
  destruct (getOpponent_Some b playerId) as [other Hopp];
    [by apply battle_wf_lookup|].
  destruct (setAction_accepted b playerId action other r Hwf Hf Hopp Hv)
    as (_ & _ & Hwait & Hres & _).
  destruct (slot _ (id other)) as [oa|].
  - destruct Hres as (log & _ & ->); [done|]. eexists. split; [done|].
    split; [done|]. simpl. split; eauto.
  - rewrite Hwait by done. eexists. split; [done|].
    split; [done|]. simpl. split; [done|]. intros [?|[? ?]]; done.
Qed.

(** ** Look-ups in a battle *)

(** X10.  [getPlayer] and [getOpponent] answer for exactly the two identities
    of the battle (and for nothing else, [null] included); the combatant
    [getPlayer] returns has the identity asked for; and when the two
    identities differ the two functions are each other's complement. *)
Theorem getPlayer_getOpponent (b : Battle) (k : option string) :
  (∀ c, getPlayer b k = Some c → k = Some (id c)) ∧
  (is_Some (getPlayer b k) ↔
     k = Some (id (playerA b)) ∨ k = Some (id (playerB b))) ∧
  (is_Some (getOpponent b k) ↔ is_Some (getPlayer b k)) ∧
  (id (playerA b) ≠ id (playerB b) →
     getPlayer b (Some (id (playerA b))) = Some (playerA b) ∧
     getPlayer b (Some (id (playerB b))) = Some (playerB b) ∧
     getOpponent b (Some (id (playerA b))) = Some (playerB b) ∧
     getOpponent b (Some (id (playerB b))) = Some (playerA b) ∧
     ∀ c, getOpponent b k = Some c → k ≠ Some (id c)).
Proof.
  unfold getPlayer, getOpponent. split; [|split; [|split]].
  - intros c. repeat case_bool_decide; intros; by simplify_eq.
  - repeat case_bool_decide; split; intros; simplify_eq; eauto;
      try (by destruct H1); naive_solver.
  - repeat case_bool_decide; split; eauto.
  - intros Hne. repeat split.
    + by rewrite bool_decide_eq_true_2.
    + rewrite bool_decide_eq_false_2 by congruence.
      by rewrite bool_decide_eq_true_2.
    + by rewrite bool_decide_eq_true_2.
    + rewrite bool_decide_eq_false_2 by congruence.
      by rewrite bool_decide_eq_true_2.
    + intros c. repeat case_bool_decide; intros; simplify_eq; congruence.
Qed.

Lemma getPlayer_getOpponent_witness :
  getOpponent duel (Some "sawa_2@mastodon.social") = Some sawa ∧
  getOpponent duel (Some "sawa_@mastodon.social") = Some sawa2 ∧
  is_Some (getPlayer duel (Some "sawa_@mastodon.social")).
Proof.
  destruct (getPlayer_getOpponent duel (Some "sawa_@mastodon.social"))
    as (_ & Hsome & _ & Hcompl).
  destruct Hcompl as (_ & _ & H1 & H2 & _); [compute_done|].
  split; [exact H1|]. split; [exact H2|].
  apply Hsome. right. reflexivity.
Defined.

(** X11.  [actionKo] has a word for exactly the actions [setAction] accepts:
    every other value, the unset slot included, is shown as undecided; and
    the three accepted actions get three different words. *)
Theorem actionKo_valid (a : option string) :
  (actionKo a ≠ KoUndecided ↔ ∃ s, a = Some s ∧ valid_action s = true) ∧
  (∀ s s', valid_action s = true → valid_action s' = true →
           actionKo (Some s) = actionKo (Some s') → s = s').
Proof.
  assert (∀ s, valid_action s = true ↔
               s = ACTION_ATTACK ∨ s = ACTION_DEFEND ∨ s = ACTION_EVADE) as Hv.
  { intros s. unfold valid_action, ACTION_values.
    rewrite bool_decide_eq_true, !elem_of_cons, elem_of_nil. tauto. }
  split.
  - unfold actionKo. split.
    + repeat case_bool_decide; try done; intros _; simplify_eq;
        eexists; (split; [done|]); apply Hv; auto.
    + intros (s & -> & Hs). apply Hv in Hs.
      destruct Hs as [->|[->| ->]]; done.
  - intros s s' Hs Hs'. apply Hv in Hs. apply Hv in Hs'.
    destruct Hs as [->|[->| ->]], Hs' as [->|[->| ->]]; done.
Qed.

Lemma actionKo_valid_witness :
  actionKo (Some "evade") ≠ KoUndecided ∧ "defend" = "defend".
Proof.
  destruct (actionKo_valid (Some "evade")) as [Hword Hinj].
  split.
  - apply Hword. exists "evade". split; reflexivity.
  - apply Hinj; reflexivity.
Defined.

(** X18.  Along every battle that starts between two combatants of different
    identities with positive hp: once the battle is finished,
    [finishMessage] returns the winner message, the winner it names is the
    combatant recorded as winner, who still stands, and the loser it names
    is the other one, who has no hp left. *)
Theorem finishMessage_names_survivor (a b : Combatant) (r : RNG)
    (calls : list (string * string)) (r' : RNG) :
  0 < hp a → 0 < hp b → id a ≠ id b →
  let battle := (Battle_run (Battle_new a b r).1 calls r').1 in
  isFinished battle = true →
  ∃ w l,
    finishMessage battle =
      Return (FinishWinner (name w) (name l) (statusLine battle)) ∧
    ((w = playerA battle ∧ l = playerB battle) ∨
     (w = playerB battle ∧ l = playerA battle)) ∧
    winnerId battle = Some (id w) ∧ 0 < hp w ∧ hp l <= 0.
Proof.
  intros Ha Hb Hne. simpl. intros Hfin.
  destruct (Battle_new_players a b r) as (HA & HB & HF & _).
  assert (settled (Battle_new a b r).1) as Hs.
  { unfold settled, outcome_of. by rewrite HF, HA, HB. }
  apply (Battle_run_settled _ calls r' (Battle_new_wf a b r)
           (Battle_new_order_ok a b r)) in Hs.
  pose proof (Battle_run_frame _ calls r' (Battle_new_wf a b r)) as F.
  pose proof (same_frame_id_A _ _ F) as IA.
  pose proof (same_frame_id_B _ _ F) as IB.
  rewrite HA in IA. rewrite HB in IB. clear HA HB HF F.
  revert Hs Hfin IA IB. unfold settled, outcome_of, finishMessage, getPlayer, getOpponent.
  set (battle := (Battle_run (Battle_new a b r).1 calls r').1).
  intros Hs Hfin IA IB. rewrite Hfin in Hs.
  destruct (winnerId battle) as [w|]; [|done].
  destruct Hs as [(-> & H1 & H2)|(-> & H1 & H2)].
  - exists (playerA battle), (playerB battle).
    rewrite (bool_decide_eq_false_2 (Some _ = None)) by done. simpl.
    rewrite bool_decide_eq_true_2 by done. auto 10.
  - exists (playerB battle), (playerA battle).
    rewrite (bool_decide_eq_false_2 (Some _ = None)) by done. simpl.
    rewrite (bool_decide_eq_false_2 (Some (id (playerA battle)) = _))
      by congruence.
    rewrite bool_decide_eq_true_2 by done. auto 10.
Qed.

Lemma finishMessage_names_survivor_witness :
  ∃ w l, finishMessage fallen =
           Return (FinishWinner (name w) (name l) (statusLine fallen)) ∧
         ((w = playerA fallen ∧ l = playerB fallen) ∨
          (w = playerB fallen ∧ l = playerA fallen)) ∧
         winnerId fallen = Some (id w) ∧ 0 < hp w ∧ hp l <= 0.
Proof.
  apply (finishMessage_names_survivor sawa2 frail (scripted [] 0%Q)
           [("sawa_2@mastodon.social", "attack"); ("frail@mastodon.social", "attack")]
           (scripted [0%Q; (1 # 2)%Q] 0%Q) eq_refl eq_refl).
  - compute_done.
  - vm_compute. exact eq_refl.
Defined.

(** ** Starting a battle *)

Lemma startBattle_busy m charA charB r :
  battlesById m !! makeBattleId (id charA) (id charB) = None →
  is_Some (battleIdByPlayer m !! id charA) ∨
  is_Some (battleIdByPlayer m !! id charB) →
  startBattle m charA charB r =
    ({| start_ok := false; start_battleId := makeBattleId (id charA) (id charB);
        start_message := MsgSomeoneBusy |}, m, r).
Proof.
  intros Hk Hbusy. unfold startBattle. rewrite Hk.
  rewrite bool_decide_eq_false_2 by by intros [? ?].
  destruct Hbusy as [H|H].
  - by rewrite (bool_decide_eq_true_2 _ H).
  - rewrite (bool_decide_eq_true_2 _ H). by rewrite orb_true_r.
Qed.

(** X12.  [startBattle] accepts exactly when the key of the pair is not
    registered and neither identity is in the participant map.  Every refusal
    leaves registry and random source as they were; with a free key and a
    busy identity the refusal is the "someone is busy" one.  The battle id it
    reports is always the key of the pair. *)
Theorem startBattle_decision (m : BattleManager) (charA charB : Combatant)
    (r : RNG) :
  let key := makeBattleId (id charA) (id charB) in
  let res := (startBattle m charA charB r).1.1 in
  start_battleId res = key ∧
  (start_ok res = true ↔
     battlesById m !! key = None ∧ battleIdByPlayer m !! id charA = None ∧
     battleIdByPlayer m !! id charB = None) ∧
  (start_ok res = false → startBattle m charA charB r = (res, m, r)) ∧
  (battlesById m !! key = None →
   is_Some (battleIdByPlayer m !! id charA) ∨
   is_Some (battleIdByPlayer m !! id charB) →
   start_message res = MsgSomeoneBusy).
Proof.
  simpl.
  destruct (battlesById m !! makeBattleId (id charA) (id charB)) as [b|] eqn:Hk.
  { rewrite startBattle_refused by (rewrite Hk; eauto). simpl.
    repeat split; try done. by intros (? & _). }
  destruct (battleIdByPlayer m !! id charA) as [ka|] eqn:HA.
  { rewrite startBattle_busy by (rewrite ?HA; eauto). simpl.
    repeat split; try done. by intros (_ & ? & _). }
  destruct (battleIdByPlayer m !! id charB) as [kb|] eqn:HB.
  { rewrite startBattle_busy by (rewrite ?HB; eauto). simpl.
    repeat split; try done. by intros (_ & _ & ?). }
  destruct (startBattle_accepted m charA charB r Hk HA HB) as [-> _]. simpl.
  repeat split; try done. intros _ [[? ?]|[? ?]]; done.
Qed.

Lemma startBattle_decision_witness :
  start_ok (startBattle BattleManager_new sawa2 sawa (scripted [] 0%Q)).1.1 = true ∧
  start_message (startBattle arena sawa frail (scripted [] 0%Q)).1.1
    = MsgSomeoneBusy ∧
  (startBattle arena sawa frail (scripted [] 0%Q)).1.2 = arena.
Proof.
  pose proof (startBattle_decision BattleManager_new sawa2 sawa (scripted [] 0%Q)) as H.
  pose proof (startBattle_decision arena sawa frail (scripted [] 0%Q)) as H'.
  cbv zeta in *. destruct H as (_ & Hok & _). destruct H' as (_ & _ & Hno & Hbusy).
  split; [|split].
  - apply Hok. repeat split.
  - apply Hbusy; [vm_compute; exact eq_refl|right; compute_done].
  - by rewrite Hno by (vm_compute; exact eq_refl).
Defined.

Lemma startBattle_ok_free m charA charB r :
  start_ok (startBattle m charA charB r).1.1 = true →
  battlesById m !! makeBattleId (id charA) (id charB) = None ∧
  battleIdByPlayer m !! id charA = None ∧
  battleIdByPlayer m !! id charB = None.
Proof.
  intros Hok.
  destruct (battlesById m !! makeBattleId (id charA) (id charB)) eqn:Hk.
  { rewrite startBattle_refused in Hok by (rewrite Hk; eauto). done. }
  destruct (battleIdByPlayer m !! id charA) eqn:HA.
  { rewrite startBattle_busy in Hok by (rewrite ?HA; eauto). done. }
  destruct (battleIdByPlayer m !! id charB) eqn:HB.
  { rewrite startBattle_busy in Hok by (rewrite ?HB; eauto). done. }
  done.
Qed.

Lemma startBattle_started m charA charB r :
  start_ok (startBattle m charA charB r).1.1 = true →
  (startBattle m charA charB r).1.2 =
    {| battlesById :=
         <[makeBattleId (id charA) (id charB) := (Battle_new charA charB r).1]>
           (battlesById m);
       battleIdByPlayer :=
         <[id charB := makeBattleId (id charA) (id charB)]>
           (<[id charA := makeBattleId (id charA) (id charB)]> (battleIdByPlayer m)) |} ∧
  battlesById m !! makeBattleId (id charA) (id charB) = None.
Proof.
  intros Hok. destruct (startBattle_ok_free m charA charB r Hok) as (Hk & HA & HB).
  by destruct (startBattle_accepted m charA charB r Hk HA HB) as [_ ->].
Qed.

Lemma startBattle_not_started m charA charB r :
  start_ok (startBattle m charA charB r).1.1 = false →
  (startBattle m charA charB r).1.2 = m.
Proof.
  intros Hok.
  destruct (battlesById m !! makeBattleId (id charA) (id charB)) eqn:Hk.
  { by rewrite startBattle_refused by (rewrite Hk; eauto). }
  destruct (battleIdByPlayer m !! id charA) eqn:HA.
  { by rewrite startBattle_busy by (rewrite ?HA; eauto). }
  destruct (battleIdByPlayer m !! id charB) eqn:HB.
  { by rewrite startBattle_busy by (rewrite ?HB; eauto). }
  destruct (startBattle_accepted m charA charB r Hk HA HB) as [E _].
  rewrite E in Hok. done.
Qed.

(** X13.  An accepted [startBattle] registers the fresh battle under the key
    and both identities under that key, so that both sides are routed to the
    new battle; every other battle and every other participant entry is what
    it was. *)
Theorem startBattle_registers (m : BattleManager) (charA charB : Combatant)
    (r : RNG) :
  start_ok (startBattle m charA charB r).1.1 = true →
  let key := makeBattleId (id charA) (id charB) in
  let battle := (Battle_new charA charB r).1 in
  let m' := (startBattle m charA charB r).1.2 in
  (startBattle m charA charB r).2 = (Battle_new charA charB r).2 ∧
  battlesById m' !! key = Some battle ∧
  battleIdByPlayer m' !! id charA = Some key ∧
  battleIdByPlayer m' !! id charB = Some key ∧
  findBattleForPlayer m' (id charA) = Some battle ∧
  findBattleForPlayer m' (id charB) = Some battle ∧
  (∀ k, k ≠ key → battlesById m' !! k = battlesById m !! k) ∧
  (∀ acct, acct ≠ id charA → acct ≠ id charB →
           battleIdByPlayer m' !! acct = battleIdByPlayer m !! acct).
Proof.
  intros Hok. simpl.
  destruct (startBattle_ok_free m charA charB r Hok) as (Hk & HA & HB).
  destruct (startBattle_accepted m charA charB r Hk HA HB) as [_ Hm].
  assert ((startBattle m charA charB r).2 = (Battle_new charA charB r).2) as Hr.
  { unfold startBattle. rewrite Hk, HA, HB.
    rewrite !bool_decide_eq_false_2 by by intros [? ?]. simpl.
    by destruct (Battle_new charA charB r). }
  rewrite Hm. unfold findBattleForPlayer. simpl.
  pose proof (makeBattleId_nonempty (id charA) (id charB)) as Hne.
  assert (<[id charB:=makeBattleId (id charA) (id charB)]>
            (<[id charA:=makeBattleId (id charA) (id charB)]> (battleIdByPlayer m))
            !! id charA = Some (makeBattleId (id charA) (id charB))) as HlA.
  { destruct (decide (id charB = id charA)) as [->|];
      [by rewrite lookup_insert_eq
      |by rewrite lookup_insert_ne, lookup_insert_eq]. }
  rewrite HlA, !lookup_insert_eq, bool_decide_eq_false_2 by done.
  repeat split; try done.
  - intros k Hk'. by rewrite lookup_insert_ne.
  - intros acct H1 H2. by rewrite !lookup_insert_ne.
Qed.

Lemma startBattle_registers_witness :
  let m' := (startBattle BattleManager_new sawa2 sawa (scripted [] 0%Q)).1.2 in
  findBattleForPlayer m' "sawa_2@mastodon.social" = Some duel ∧
  findBattleForPlayer m' "sawa_@mastodon.social" = Some duel.
Proof.
  pose proof (startBattle_registers BattleManager_new sawa2 sawa (scripted [] 0%Q)
                eq_refl) as H.
  cbv zeta in *. destruct H as (_ & _ & _ & _ & HA & HB & _).
  split; [exact HA|exact HB].
Defined.

(** ** Routing an action *)

(** X14.  In every registry the manager can reach, [submitAction] by someone
    who is not in the participant map is refused with [ok = false] and
    changes nothing; and [submitAction] by a participant touches their own
    battle only: every battle under another key and every participant entry
    that points to another key is what it was. *)
Theorem submitAction_frame (qs : list request) (r0 : RNG)
    (acct action : string) (r : RNG) :
  let m := (serve_all BattleManager_new qs r0).1 in
  let m' := (submitAction m acct action r).1.2 in
  (battleIdByPlayer m !! acct = None →
     submitAction m acct action r =
       (Return {| ok := false; message := MsgNotInBattle |}, m, r)) ∧
  (∀ k, battleIdByPlayer m !! acct ≠ Some k →
        battlesById m' !! k = battlesById m !! k) ∧
  (∀ acct' k', battleIdByPlayer m !! acct' = Some k' →
               battleIdByPlayer m !! acct ≠ Some k' →
               battleIdByPlayer m' !! acct' = Some k').
Proof.
  simpl. pose proof (reachable_inv qs r0) as Hinv.
  set (m := (serve_all BattleManager_new qs r0).1) in *.
  destruct (battleIdByPlayer m !! acct) as [k|] eqn:Hk; cycle 1.
  { assert (submitAction m acct action r =
              (Return {| ok := false; message := MsgNotInBattle |}, m, r)) as ->
      by (unfold submitAction, findBattleForPlayer; by rewrite Hk).
    done. }
  destruct (findBattleForPlayer_inv m acct k Hinv Hk)
    as (battle & _ & Hbk & Hne & Hwf & _).
  destruct (submitAction_found m acct action r k battle Hk Hne Hbk Hwf)
    as (res & _ & ->). simpl.
  destruct Hinv as [Hp Hb].
  destruct (Hb _ _ Hbk) as (_ & _ & _ & HpA & HpB).
  split; [done|]. split.
  - intros k' Hk'. assert (k' ≠ k) by congruence.
    destruct (isFinished _); simpl;
      [by rewrite lookup_delete_ne|by rewrite lookup_insert_ne].
  - intros acct' k' Hacct' Hk'. assert (k' ≠ k) by congruence.
    destruct (isFinished _); simpl; [|done].
    rewrite !lookup_delete_ne; [done|congruence..].
Qed.

Lemma submitAction_frame_witness :
  submitAction arena "sawa_@mastodon.social" "attack" (scripted [] 0%Q) =
    (Return {| ok := false; message := MsgNotInBattle |}, arena, scripted [] 0%Q).
Proof.
  apply (submitAction_frame
           [Start sawa2 frail; Action "sawa_2@mastodon.social" "attack"]
           (scripted [] 0%Q) "sawa_@mastodon.social" "attack" (scripted [] 0%Q)).
  vm_compute. exact eq_refl.
Defined.

(** X15.  In every registry the manager can reach, [findBattleForPlayer]
    finds a battle exactly for the identities in the participant map; the
    battle found is not finished, the asking identity is one of its two
    sides, and both of its sides are routed to this same battle. *)
Theorem findBattleForPlayer_routes (qs : list request) (r0 : RNG)
    (acct : string) :
  let m := (serve_all BattleManager_new qs r0).1 in
  (is_Some (findBattleForPlayer m acct) ↔ is_Some (battleIdByPlayer m !! acct)) ∧
  (∀ b, findBattleForPlayer m acct = Some b →
        isFinished b = false ∧
        (acct = id (playerA b) ∨ acct = id (playerB b)) ∧
        findBattleForPlayer m (id (playerA b)) = Some b ∧
        findBattleForPlayer m (id (playerB b)) = Some b).
Proof.
  simpl. pose proof (reachable_inv qs r0) as Hinv.
  set (m := (serve_all BattleManager_new qs r0).1) in *.
  split.
  - split.
    + intros [b Hb]. apply findBattleForPlayer_Some in Hb as (k & Hk & _). eauto.
    + intros [k Hk].
      destruct (findBattleForPlayer_inv m acct k Hinv Hk) as (b & -> & _). eauto.
  - intros b Hfind.
    destruct (findBattleForPlayer_Some _ _ _ Hfind) as (k & Hk & Hne & Hbk).
    pose proof Hinv as [Hp Hb].
    destruct (Hb _ _ Hbk) as (Hf & _ & _ & HpA & HpB).
    destruct (Hp _ _ Hk) as (b' & Hb'k & Hid). simplify_eq.
    split; [done|]. split; [done|].
    destruct (findBattleForPlayer_inv m _ k Hinv HpA) as (bA & -> & HbA & _).
    destruct (findBattleForPlayer_inv m _ k Hinv HpB) as (bB & -> & HbB & _).
    split; congruence.
Qed.

Lemma findBattleForPlayer_routes_witness :
  findBattleForPlayer arena "sawa_2@mastodon.social" = Some arena_battle ∧
  isFinished arena_battle = false.
Proof.
  destruct (findBattleForPlayer_routes
              [Start sawa2 frail; Action "sawa_2@mastodon.social" "attack"]
              (scripted [] 0%Q) "frail@mastodon.social") as [_ Hroute].
  destruct (Hroute arena_battle arena_find) as (Hf & _ & HA & _).
  split; [exact HA|exact Hf].
Defined.

(** ** The hp bar *)

Lemma Qfloor_half (w : Z) : Qfloor (inject_Z w + (1 # 2))%Q = w.
Proof.
  apply Z.le_antisymm.
  - apply Z.lt_succ_r. rewrite Zlt_Qlt.
    eapply Qle_lt_trans; [apply Qfloor_le|].
    unfold Z.succ. rewrite inject_Z_plus. apply Qplus_lt_r. done.
  - rewrite <- (Qfloor_Z w) at 1. apply Qfloor_resp_le.
    rewrite <- (Qplus_0_r (inject_Z w)) at 1. apply Qplus_le_r. done.
Qed.

Lemma filled_cells_mono_ratio (x y : Q) (width : nat) :
  (x <= y)%Q →
  (Z.to_nat (Qfloor (clamp 0 1 x * inject_Z (Z.of_nat width) + (1 # 2))%Q)
   ≤ Z.to_nat (Qfloor (clamp 0 1 y * inject_Z (Z.of_nat width) + (1 # 2))%Q))%nat.
Proof.
  intros H.
  assert (Qfloor (clamp 0 1 x * inject_Z (Z.of_nat width) + (1 # 2))%Q
          <= Qfloor (clamp 0 1 y * inject_Z (Z.of_nat width) + (1 # 2))%Q);
    [|lia].
  apply Qfloor_resp_le, Qplus_le_l, Qmult_le_compat_r; [by apply clamp_mono|].
  rewrite <- (Zle_Qle 0). lia.
Qed.

Lemma filled_cells_bounds hp maxHp width :
  (filled_cells hp maxHp width ≤ width)%nat.
Proof.
  unfold filled_cells.
  destruct (clamp_bounds 0 1 (inject_Z hp / inject_Z maxHp)%Q) as [_ Hhi];
    [done|].
  assert (Qfloor (clamp 0 1 (inject_Z hp / inject_Z maxHp)
                  * inject_Z (Z.of_nat width) + (1 # 2))%Q
          <= Z.of_nat width); [|lia].
  rewrite <- (Qfloor_half (Z.of_nat width)) at 2.
  apply Qfloor_resp_le, Qplus_le_l.
  rewrite <- (Qmult_1_l (inject_Z (Z.of_nat width))) at 2.
  apply Qmult_le_compat_r; [done|]. rewrite <- (Zle_Qle 0). lia.
Qed.

Lemma filled_cells_full hp maxHp width :
  0 < maxHp → maxHp <= hp → filled_cells hp maxHp width = width.
Proof.
  intros Hm Hh. apply Nat.le_antisymm; [apply filled_cells_bounds|].
  unfold filled_cells.
  assert (Z.of_nat width <=
          Qfloor (clamp 0 1 (inject_Z hp / inject_Z maxHp)
                  * inject_Z (Z.of_nat width) + (1 # 2))%Q); [|lia].
  rewrite <- (Qfloor_half (Z.of_nat width)) at 1.
  apply Qfloor_resp_le, Qplus_le_l.
  rewrite <- (Qmult_1_l (inject_Z (Z.of_nat width))) at 1.
  apply Qmult_le_compat_r; [|rewrite <- (Zle_Qle 0); lia].
  unfold clamp. eapply Qle_trans; [|apply Q.le_max_r].
  apply Q.min_glb; [done|].
  apply Qle_shift_div_l; [by rewrite <- (Zlt_Qlt 0)|].
  rewrite Qmult_1_l. by rewrite <- Zle_Qle.
Qed.

Lemma filled_cells_none hp maxHp width :
  0 < maxHp → hp <= 0 → filled_cells hp maxHp width = 0%nat.
Proof.
  intros Hm Hh. unfold filled_cells.
  assert (Qfloor (clamp 0 1 (inject_Z hp / inject_Z maxHp)
                  * inject_Z (Z.of_nat width) + (1 # 2))%Q <= 0); [|lia].
  rewrite <- (Qfloor_half 0) at 2.
  apply Qfloor_resp_le, Qplus_le_l.
  apply Qle_trans with (0 * inject_Z (Z.of_nat width))%Q;
    [|by rewrite Qmult_0_l].
  apply Qmult_le_compat_r; [|rewrite <- (Zle_Qle 0); lia].
  unfold clamp. apply Q.max_lub; [done|].
  eapply Qle_trans; [apply Q.le_min_r|].
  apply Qle_shift_div_r; [by rewrite <- (Zlt_Qlt 0)|].
  rewrite Qmult_0_l. by rewrite <- (Zle_Qle _ 0).
Qed.

Lemma filled_cells_mono hp hp' maxHp width :
  0 < maxHp → hp <= hp' →
  (filled_cells hp maxHp width ≤ filled_cells hp' maxHp width)%nat.
Proof.
  intros Hm Hh. apply filled_cells_mono_ratio.
  unfold Qdiv. apply Qmult_le_compat_r; [by rewrite <- Zle_Qle|].
  apply Qinv_le_0_compat. rewrite <- (Zle_Qle 0). lia.
Qed.

(** X16.  The hp bar.  Unless both hp and maxHp are 0 (then the bar is
    empty), the bar has exactly [width] cells: full blocks first, light
    shades after.  For a positive maxHp it is all full from [hp = maxHp]
    upwards, all light for [hp] at or below 0, and the number of full cells
    does not go down when hp goes up. *)
Theorem hpBar_shape (hp maxHp : Z) (width : nat) :
  (maxHp ≠ 0 ∨ hp ≠ 0 → length (hpBar hp maxHp width) = width) ∧
  (maxHp = 0 → hp = 0 → hpBar hp maxHp width = []) ∧
  (0 < maxHp → maxHp <= hp → hpBar hp maxHp width = replicate width Full) ∧
  (0 < maxHp → hp <= 0 → hpBar hp maxHp width = replicate width Blank) ∧
  (0 < maxHp → ∀ hp', hp <= hp' →
     ∃ n n', (n ≤ n' ≤ width)%nat ∧
       hpBar hp maxHp width = replicate n Full ++ replicate (width - n) Blank ∧
       hpBar hp' maxHp width = replicate n' Full ++ replicate (width - n') Blank).
Proof.
  split; [|split; [|split; [|split]]].
  - intros Hnz. unfold hpBar.
    destruct (Z.eqb_spec maxHp 0) as [->|Hm].
    + destruct (Z.ltb_spec 0 hp); [by rewrite length_replicate|].
      destruct (Z.ltb_spec hp 0); [by rewrite length_replicate|].
      destruct Hnz; lia.
    + pose proof (filled_cells_bounds hp maxHp width).
      rewrite length_app, !length_replicate. lia.
  - intros -> ->. done.
  - intros Hm Hh. unfold hpBar.
    destruct (Z.eqb_spec maxHp 0); [lia|].
    rewrite filled_cells_full by done.
    by rewrite Nat.sub_diag, app_nil_r.
  - intros Hm Hh. unfold hpBar.
    destruct (Z.eqb_spec maxHp 0); [lia|].
    rewrite filled_cells_none by done. simpl. by rewrite Nat.sub_0_r.
  - intros Hm hp' Hh.
    exists (filled_cells hp maxHp width), (filled_cells hp' maxHp width).
    unfold hpBar. destruct (Z.eqb_spec maxHp 0); [lia|].
    split; [|done]. split; [by apply filled_cells_mono|apply filled_cells_bounds].
Qed.

Lemma hpBar_shape_witness :
  length (hpBar 67 100 10) = 10%nat ∧
  hpBar 0 0 10 = [] ∧
  hpBar 100 100 10 = replicate 10 Full ∧
  hpBar 0 90 10 = replicate 10 Blank ∧
  hpBar 67 100 10 = replicate 7 Full ++ replicate 3 Blank.
Proof.
  destruct (hpBar_shape 67 100 10) as (Hlen & _).
  destruct (hpBar_shape 0 0 10) as (_ & Hnan & _).
  destruct (hpBar_shape 100 100 10) as (_ & _ & Hfull & _).
  destruct (hpBar_shape 0 90 10) as (_ & _ & _ & Hnone & _).
  split; [apply Hlen; left; lia|]. split; [by apply Hnan|].
  split; [apply Hfull; lia|]. split; [apply Hnone; lia|].
  vm_compute. exact eq_refl.
Defined.

(** ** Commands *)

Lemma parseCommand_valid (normalizeText : string → string) (s a : string) :
  parseCommand normalizeText s = CmdAction a → valid_action a = true.
Proof.
  unfold parseCommand. case_bool_decide; [done|].
  destruct (includes "전투" _); [done|]. simpl.
  repeat (case_match; simplify_eq/=); by intros [= <-].
Qed.

(** X17.  [parseCommand] looks for the four words in a fixed order, wherever
    they stand in the text: the word for a battle wins over every action
    word, then attack wins over defend and defend over evade; a text with
    none of the four is unknown.  Every action it returns is one that
    [setAction] accepts.  (For any text normaliser.) *)
Theorem parseCommand_words (normalizeText : string → string) (s : string) :
  (∀ a, parseCommand normalizeText s = CmdAction a → valid_action a = true) ∧
  (includes "전투" (normalizeText s) = true →
     parseCommand normalizeText s = CmdStart) ∧
  (includes "전투" (normalizeText s) = false →
     (includes "공격" (normalizeText s) = true →
        parseCommand normalizeText s = CmdAction ACTION_ATTACK) ∧
     (includes "공격" (normalizeText s) = false →
        (includes "방어" (normalizeText s) = true →
           parseCommand normalizeText s = CmdAction ACTION_DEFEND) ∧
        (includes "방어" (normalizeText s) = false →
           (includes "회피" (normalizeText s) = true →
              parseCommand normalizeText s = CmdAction ACTION_EVADE) ∧
           (includes "회피" (normalizeText s) = false →
              parseCommand normalizeText s = CmdUnknown)))).
Proof.
  unfold parseCommand.
  case_bool_decide as Hempty.
  { rewrite Hempty. repeat split; try done. }
  split.
  - intros a. destruct (includes "전투" _); [done|]. simpl.
    repeat (case_match; simplify_eq/=); by intros [= <-].
  - split; [by intros ->|]. intros ->. simpl.
    split; [by intros ->|]. intros ->.
    split; [by intros ->|]. intros ->.
    split; [by intros ->|]. by intros ->.
Qed.

Lemma parseCommand_words_witness :
  parseCommand (λ s, s) "회피 아니 공격" = CmdAction ACTION_ATTACK ∧
  parseCommand (λ s, s) "공격 전투" = CmdStart.
Proof.
  destruct (parseCommand_words (λ s, s) "회피 아니 공격") as (_ & _ & Hact).
  destruct (parseCommand_words (λ s, s) "공격 전투") as (_ & Hstart & _).
  split.
  - apply Hact; reflexivity.
  - apply Hstart. reflexivity.
Defined.

(** ** Accepted actions *)

Lemma submitAction_accepts_inv m acct action r :
  registry_inv m →
  is_Some (battleIdByPlayer m !! acct) →
  valid_action action = true →
  ∃ msg,
    (submitAction m acct action r).1.1 = Return {| ok := true; message := msg |} ∧
    (msg = MsgWaiting ∨ ∃ log, msg = MsgRound log).
Proof.
  intros Hinv [k Hk] Hv.
  destruct (findBattleForPlayer_inv m acct k Hinv Hk)
    as (battle & _ & Hbk & Hne & Hwf & Hlive).
  destruct (submitAction_found m acct action r k battle Hk Hne Hbk Hwf)
    as (res & Hres & ->). simpl.
  exists (done_message res). split; [done|].
  destruct Hinv as [Hp _]. destruct (Hp _ _ Hk) as (b' & Hb' & Hid).
  simplify_eq.
  destruct (getOpponent_Some battle acct Hid) as [other Hopp].
  destruct (setAction_accepted battle acct action other r Hwf Hlive Hopp Hv)
    as (_ & _ & Hwait & Hround & _).
  destruct (slot _ (id other)) as [oa|].
  - destruct Hround as (log & _ & E); [done|].
    rewrite E in Hres. simpl in Hres. simplify_eq. eauto.
  - rewrite Hwait in Hres by done. simpl in Hres. simplify_eq. auto.
Qed.

(** X19.  In every registry the manager can reach, a valid action submitted
    by an identity of the participant map is never turned down: the answer
    is [ok = true] with either the waiting message or the log of the round
    the call resolved. *)
Theorem submitAction_accepts (qs : list request) (r0 : RNG)
    (acct action : string) (r : RNG) :
  let m := (serve_all BattleManager_new qs r0).1 in
  is_Some (battleIdByPlayer m !! acct) →
  valid_action action = true →
  ∃ msg,
    (submitAction m acct action r).1.1 = Return {| ok := true; message := msg |} ∧
    (msg = MsgWaiting ∨ ∃ log, msg = MsgRound log).
Proof. simpl. apply submitAction_accepts_inv, reachable_inv. Qed.

Lemma submitAction_accepts_witness :
  ∃ msg,
    (submitAction arena "frail@mastodon.social" "evade" (scripted [] 0%Q)).1.1
      = Return {| ok := true; message := msg |} ∧
    (msg = MsgWaiting ∨ ∃ log, msg = MsgRound log).
Proof.
  apply (submitAction_accepts
           [Start sawa2 frail; Action "sawa_2@mastodon.social" "attack"]
           (scripted [] 0%Q) "frail@mastodon.social" "evade" (scripted [] 0%Q)).
  - compute_done.
  - reflexivity.
Defined.

(** ** The status handler *)

Section HandlerProperties.
Variable normalizeText : string → string.
Variable trim : string → string.
Variable characterStore : gmap string Template.

Lemma handle_request m st r :
  ((handleIncomingStatus normalizeText trim characterStore m st r).1.2, (handleIncomingStatus normalizeText trim characterStore m st r).2) =
    match request_of normalizeText trim characterStore st with
    | Some q => serve m q r
    | None => (m, r)
    end.
Proof.
  unfold handleIncomingStatus, request_of.
  destruct (strip_at <$> account_acct st) as [actor|]; [|done].
  case_bool_decide; [done|].
  destruct (parseCommand _ _) as [|action|]; [| |done].
  - destruct (filter _ _) as [|acctA [|acctB rest]]; [done|done|].
    case_bool_decide; [done|].
    destruct (buildCharacterFromAcct _ _ acctA None) as [charA|],
             (buildCharacterFromAcct _ _ acctB None) as [charB|]; try done.
    simpl. by destruct (startBattle m charA charB r) as [[res m1] r1].
  - case_bool_decide; simpl; [|done].
    by destruct (submitAction m actor action r) as [[[res|] m1] r1].
Qed.

Lemma buildCharacterFromAcct_from_store acct dn c :
  store_keys_ok characterStore →
  buildCharacterFromAcct trim characterStore acct dn = Some c →
  id c = acct ∧ from_store characterStore c ∧ hp c = maxHp c.
Proof.
  intros Hkeys. unfold buildCharacterFromAcct.
  destruct (characterStore !! acct) as [base|] eqn:Hb; [|done].
  intros [= <-]. simpl. pose proof (Hkeys _ _ Hb) as Hid.
  split; [done|]. split; [|done].
  exists base. simpl. by rewrite Hid.
Qed.

Lemma request_good st q :
  store_keys_ok characterStore →
  request_of normalizeText trim characterStore st = Some q → good_request characterStore q.
Proof.
  intros Hkeys. unfold request_of.
  destruct (strip_at <$> account_acct st) as [actor|]; [|done].
  case_bool_decide; [done|].
  destruct (parseCommand _ _) as [|action|] eqn:Hcmd; [| |done].
  - destruct (filter _ _) as [|acctA [|acctB rest]]; [done|done|].
    case_bool_decide as Hne; [done|].
    destruct (buildCharacterFromAcct _ _ acctA None) as [charA|] eqn:HA; [|done].
    destruct (buildCharacterFromAcct _ _ acctB None) as [charB|] eqn:HB; [|done].
    intros [= <-]. simpl.
    destruct (buildCharacterFromAcct_from_store _ _ _ Hkeys HA) as (IA & SA & FA).
    destruct (buildCharacterFromAcct_from_store _ _ _ Hkeys HB) as (IB & SB & FB).
    repeat split; try done. congruence.
  - case_bool_decide; [|done]. intros [= <-]. simpl. split; [|done].
    by apply (parseCommand_valid normalizeText _ _ Hcmd).
Qed.

Lemma handle_all_serve_all m sts r :
  handle_all normalizeText trim characterStore m sts r =
    serve_all m (omap (request_of normalizeText trim characterStore) sts) r.
Proof.
  revert m r. induction sts as [|st sts IH]; intros m r; [done|].
  change (omap (request_of normalizeText trim characterStore) (st :: sts))
    with (match request_of normalizeText trim characterStore st with
          | Some q => q :: omap (request_of normalizeText trim characterStore) sts
          | None => omap (request_of normalizeText trim characterStore) sts
          end).
  cbn [handle_all]. pose proof (handle_request m st r) as H.
  destruct (handleIncomingStatus normalizeText trim characterStore m st r)
    as [[res m1] r1]. simpl in H.
  destruct (request_of normalizeText trim characterStore st) as [q|].
  - cbn [serve_all]. rewrite <- H. apply IH.
  - injection H as -> ->. apply IH.
Qed.

Lemma from_store_frame c c' :
  set_hp c' 0 = set_hp c 0 →
  from_store characterStore c → from_store characterStore c'.
Proof.
  intros H (base & Hb & ?). exists base.
  destruct c, c'. simpl in *. by simplify_eq.
Qed.

Lemma serve_handler_inv m q r :
  registry_inv m → handler_inv characterStore m →
  good_request characterStore q →
  handler_inv characterStore (serve m q r).1.
Proof.
  intros Hinv Hh Hq. destruct q as [charA charB|acct action]; simpl.
  - destruct Hq as (Hne & SA & SB & _).
    destruct (start_ok (startBattle m charA charB r).1.1) eqn:Hok.
    + pose proof (startBattle_started m charA charB r Hok) as (Hm & _).
      destruct (startBattle m charA charB r) as [[res m1] r1]. simpl in *.
      subst m1. intros k b. simpl.
      destruct (Battle_new_players charA charB r) as (PA & PB & _).
      destruct (decide (k = makeBattleId (id charA) (id charB))) as [->|Hk].
      * rewrite lookup_insert_eq. intros [= <-]. by rewrite PA, PB.
      * rewrite lookup_insert_ne by done. apply Hh.
    + pose proof (startBattle_not_started m charA charB r Hok) as Hm.
      destruct (startBattle m charA charB r) as [[res m1] r1]. simpl in *.
      by subst m1.
  - destruct (battleIdByPlayer m !! acct) as [k|] eqn:Hk; cycle 1.
    { assert (submitAction m acct action r =
                (Return {| ok := false; message := MsgNotInBattle |}, m, r)) as ->
        by (unfold submitAction, findBattleForPlayer; by rewrite Hk).
      done. }
    destruct (findBattleForPlayer_inv m acct k Hinv Hk)
      as (battle & _ & Hbk & Hne & Hwf & _).
    destruct (submitAction_found m acct action r k battle Hk Hne Hbk Hwf)
      as (res & _ & ->). simpl.
    pose proof (setAction_frame battle acct action r Hwf) as F.
    intros k' b'. destruct (isFinished _); simpl.
    + intros Hb'. apply lookup_delete_Some in Hb' as [_ Hb']. by apply (Hh k').
    + destruct (decide (k' = k)) as [->|Hk'].
      * rewrite lookup_insert_eq. intros [= <-].
        destruct (Hh _ _ Hbk) as (Hd & SA & SB).
        rewrite (same_frame_id_A _ _ F), (same_frame_id_B _ _ F).
        destruct F as (_ & FA & FB & _).
        split; [done|]. split; by eapply from_store_frame.
      * rewrite lookup_insert_ne by done. apply Hh.
Qed.

Lemma serve_all_handler_inv m qs r :
  registry_inv m → handler_inv characterStore m →
  Forall (good_request characterStore) qs →
  registry_inv (serve_all m qs r).1 ∧
  handler_inv characterStore (serve_all m qs r).1.
Proof.
  revert m r. induction qs as [|q qs IH]; intros m r Hinv Hh Hqs; [done|].
  apply Forall_cons in Hqs as [Hq Hqs]. cbn [serve_all].
  pose proof (serve_inv m q r Hinv) as H1.
  pose proof (serve_handler_inv m q r Hinv Hh Hq) as H2.
  destruct (serve m q r) as [m1 r1]. by apply IH.
Qed.

Lemma requests_good sts :
  store_keys_ok characterStore →
  Forall (good_request characterStore)
         (omap (request_of normalizeText trim characterStore) sts).
Proof.
  intros Hkeys. apply Forall_forall. intros q Hq.
  apply list_elem_of_omap in Hq as (st & _ & Hst).
  by eapply request_good.
Qed.

(** X20.  Whatever the handler answers that is not a message of the manager
    (no answer at all, or one of its own four refusals) leaves the registry
    and the random source untouched.  It gives no answer exactly when the
    status has no usable actor account or its text holds no command. *)
Theorem handleIncomingStatus_quiet (m : BattleManager) (st : Status) (r : RNG) :
  (∀ x, (handleIncomingStatus normalizeText trim characterStore m st r).1.1
          = Return x →
        (∀ msg, x ≠ Some (ReplyManager msg)) →
        (handleIncomingStatus normalizeText trim characterStore m st r).1.2 = m ∧
        (handleIncomingStatus normalizeText trim characterStore m st r).2 = r) ∧
  ((handleIncomingStatus normalizeText trim characterStore m st r).1.1
     = Return None ↔
   account_acct st = None ∨ strip_at <$> account_acct st = Some "" ∨
   parseCommand normalizeText (status_text st) = CmdUnknown).
Proof.
  unfold handleIncomingStatus, status_text.
  destruct (account_acct st) as [raw|]; simpl; [|split; [done|]; split; auto].
  case_bool_decide as Hactor.
  { rewrite Hactor. split; [done|]. split; auto. }
  destruct (parseCommand _ _) as [|action|]; cycle 2.
  { split; [done|]. split; auto. }
  - split.
    + intros x. destruct (filter _ _) as [|acctA [|acctB rest]]; [done|done|].
      case_bool_decide; [done|].
      destruct (buildCharacterFromAcct _ _ acctA None) as [charA|],
               (buildCharacterFromAcct _ _ acctB None) as [charB|]; try done.
      destruct (startBattle m charA charB r) as [[res m1] r1]. simpl.
      intros [= <-] Hx. by destruct (Hx (start_message res)).
    + split.
      * destruct (filter _ _) as [|acctA [|acctB rest]]; [done|done|].
        case_bool_decide; [done|].
        destruct (buildCharacterFromAcct _ _ acctA None) as [charA|],
                 (buildCharacterFromAcct _ _ acctB None) as [charB|]; try done.
        by destruct (startBattle m charA charB r) as [[res m1] r1].
      * intros [?|[[= ?]|?]]; done.
  - split.
    + intros x. case_bool_decide; simpl; [|done].
      destruct (submitAction m (strip_at raw) action r) as [[[res|] m1] r1];
        simpl; [|done].
      intros [= <-] Hx. by destruct (Hx (message res)).
    + split.
      * case_bool_decide; simpl; [|done].
        by destruct (submitAction m (strip_at raw) action r) as [[[res|] m1] r1].
      * intros [?|[[= ?]|?]]; done.
Qed.

(** X21.  The handler is a client of the manager: a stream of statuses moves
    the registry and the random source exactly as the manager serving the
    requests those statuses amount to; and, the store holding every template
    under its own identity, each such request is either a battle between two
    different characters of the store at full hp or a valid action of an
    account of the store. *)
Theorem handler_requests (m : BattleManager) (sts : list Status) (r : RNG) :
  store_keys_ok characterStore →
  handle_all normalizeText trim characterStore m sts r =
    serve_all m (omap (request_of normalizeText trim characterStore) sts) r ∧
  Forall (good_request characterStore)
         (omap (request_of normalizeText trim characterStore) sts).
Proof.
  intros Hkeys. split; [apply handle_all_serve_all|by apply requests_good].
Qed.

Lemma serve_ids_inv (P : string → Prop) m q r :
  registry_inv m →
  (∀ k b, battlesById m !! k = Some b → P (id (playerA b)) ∧ P (id (playerB b))) →
  match q with
  | Start charA charB => P (id charA) ∧ P (id charB)
  | Action _ _ => True
  end →
  ∀ k b, battlesById (serve m q r).1 !! k = Some b →
         P (id (playerA b)) ∧ P (id (playerB b)).
Proof.
  intros Hinv Hh Hq. destruct q as [charA charB|acct action]; simpl.
  - destruct (start_ok (startBattle m charA charB r).1.1) eqn:Hok.
    + pose proof (startBattle_started m charA charB r Hok) as (Hm & _).
      destruct (startBattle m charA charB r) as [[res m1] r1]. simpl in *.
      subst m1. intros k b. simpl.
      destruct (Battle_new_players charA charB r) as (PA & PB & _).
      destruct (decide (k = makeBattleId (id charA) (id charB))) as [->|Hk].
      * rewrite lookup_insert_eq. intros [= <-]. by rewrite PA, PB.
      * rewrite lookup_insert_ne by done. apply Hh.
    + pose proof (startBattle_not_started m charA charB r Hok) as Hm.
      destruct (startBattle m charA charB r) as [[res m1] r1]. simpl in *.
      by subst m1.
  - destruct (battleIdByPlayer m !! acct) as [k|] eqn:Hk; cycle 1.
    { assert (submitAction m acct action r =
                (Return {| ok := false; message := MsgNotInBattle |}, m, r)) as ->
        by (unfold submitAction, findBattleForPlayer; by rewrite Hk).
      done. }
    destruct (findBattleForPlayer_inv m acct k Hinv Hk)
      as (battle & _ & Hbk & Hne & Hwf & _).
    destruct (submitAction_found m acct action r k battle Hk Hne Hbk Hwf)
      as (res & _ & ->). simpl.
    pose proof (setAction_frame battle acct action r Hwf) as F.
    intros k' b'. destruct (isFinished _); simpl.
    + intros Hb'. apply lookup_delete_Some in Hb' as [_ Hb']. by apply (Hh k').
    + destruct (decide (k' = k)) as [->|Hk'].
      * rewrite lookup_insert_eq. intros [= <-].
        rewrite (same_frame_id_A _ _ F), (same_frame_id_B _ _ F).
        by apply (Hh k).
      * rewrite lookup_insert_ne by done. apply Hh.
Qed.

Lemma request_mentionable st charA charB :
  store_keys_ok characterStore →
  request_of normalizeText trim characterStore st = Some (Start charA charB) →
  mentionable (id charA) ∧ mentionable (id charB).
Proof.
  intros Hkeys. unfold request_of.
  destruct (strip_at <$> account_acct st) as [actor|]; [|done].
  case_bool_decide; [done|].
  destruct (parseCommand _ _) as [|action|]; [| |done]; cycle 1.
  { by case_bool_decide. }
  destruct (filter _ _) as [|acctA [|acctB rest]] eqn:Hf; [done|done|].
  case_bool_decide; [done|].
  destruct (buildCharacterFromAcct _ _ acctA None) as [cA|] eqn:HA; [|done].
  destruct (buildCharacterFromAcct _ _ acctB None) as [cB|] eqn:HB; [|done].
  intros [= <- <-].
  destruct (buildCharacterFromAcct_from_store _ _ _ Hkeys HA) as (-> & _).
  destruct (buildCharacterFromAcct_from_store _ _ _ Hkeys HB) as (-> & _).
  assert (acctA ∈ acctA :: acctB :: rest) as InA by set_solver.
  assert (acctB ∈ acctA :: acctB :: rest) as InB by set_solver.
  rewrite <- Hf in InA, InB.
  apply list_elem_of_filter in InA as [? _], InB as [? _]. done.
Qed.

Lemma handler_mentionable sts r0 acct :
  store_keys_ok characterStore →
  is_Some (battleIdByPlayer
             (handle_all normalizeText trim characterStore
                BattleManager_new sts r0).1 !! acct) →
  mentionable acct.
Proof.
  intros Hkeys. rewrite handle_all_serve_all.
  assert (∀ qs m r,
    registry_inv m →
    (∀ k b, battlesById m !! k = Some b →
            mentionable (id (playerA b)) ∧ mentionable (id (playerB b))) →
    Forall (λ q, match q with
                 | Start charA charB =>
                     mentionable (id charA) ∧ mentionable (id charB)
                 | Action _ _ => True
                 end) qs →
    registry_inv (serve_all m qs r).1 ∧
    ∀ k b, battlesById (serve_all m qs r).1 !! k = Some b →
           mentionable (id (playerA b)) ∧ mentionable (id (playerB b))) as Hall.
  { induction qs as [|q qs IH]; intros m r Hinv Hh Hqs; [done|].
    apply Forall_cons in Hqs as [Hq Hqs]. cbn [serve_all].
    pose proof (serve_inv m q r Hinv) as H1.
    pose proof (serve_ids_inv mentionable m q r Hinv Hh Hq) as H2.
    destruct (serve m q r) as [m1 r1]. by apply IH. }
  destruct (Hall (omap (request_of normalizeText trim characterStore) sts)
              BattleManager_new r0) as [[Hp _] Hh].
  { apply registry_inv_new. }
  { intros k b. simpl. by rewrite lookup_empty. }
  { apply Forall_forall. intros q Hq.
    apply list_elem_of_omap in Hq as (st & _ & Hst).
    destruct q; [|done]. by eapply request_mentionable. }
  intros [k Hk]. destruct (Hp _ _ Hk) as (b & Hb & Hid).
  destruct (Hh _ _ Hb) as [HA HB]. by destruct Hid as [->| ->].
Qed.

Lemma handler_reachable sts r0 :
  store_keys_ok characterStore →
  registry_inv (handle_all normalizeText trim characterStore
                  BattleManager_new sts r0).1 ∧
  handler_inv characterStore
    (handle_all normalizeText trim characterStore BattleManager_new sts r0).1.
Proof.
  intros Hkeys. rewrite handle_all_serve_all.
  apply serve_all_handler_inv.
  - apply registry_inv_new.
  - intros k b. simpl. by rewrite lookup_empty.
  - by apply requests_good.
Qed.

Lemma handler_participant m acct :
  registry_inv m → handler_inv characterStore m →
  is_Some (battleIdByPlayer m !! acct) → is_Some (characterStore !! acct).
Proof.
  intros [Hp _] Hh [k Hk].
  destruct (Hp _ _ Hk) as (b & Hb & Hid).
  destruct (Hh _ _ Hb) as (_ & (bA & HA & _) & (bB & HB & _)).
  destruct Hid as [->| ->]; eauto.
Qed.

(** X22.  In every registry a stream of statuses leads to from the empty
    one (the store holding every template under its own identity): every
    registered battle is between two different identities, each side has the
    statistics of its template in the store, and every identity of the
    participant map is an account of the store. *)
Theorem handler_battles (sts : list Status) (r0 : RNG) :
  store_keys_ok characterStore →
  let m := (handle_all normalizeText trim characterStore
              BattleManager_new sts r0).1 in
  (∀ k b, battlesById m !! k = Some b →
     id (playerA b) ≠ id (playerB b) ∧
     from_store characterStore (playerA b) ∧
     from_store characterStore (playerB b)) ∧
  (∀ acct, is_Some (battleIdByPlayer m !! acct) →
           is_Some (characterStore !! acct)).
Proof.
  intros Hkeys. simpl.
  destruct (handler_reachable sts r0 Hkeys) as [Hinv Hh].
  split; [exact Hh|]. intros acct. by apply handler_participant.
Qed.

(** X23.  End to end: after any stream of statuses, a status whose text
    holds an action word and whose actor is in a battle is always answered
    with a message of the manager, and that message is the waiting message
    or the log of a resolved round: an action the parser returns is never
    turned down. *)
Theorem handler_action_accepted (sts : list Status) (r0 : RNG)
    (st : Status) (actor action : string) (r : RNG) :
  store_keys_ok characterStore →
  let m := (handle_all normalizeText trim characterStore
              BattleManager_new sts r0).1 in
  strip_at <$> account_acct st = Some actor →
  parseCommand normalizeText (status_text st) = CmdAction action →
  is_Some (battleIdByPlayer m !! actor) →
  ∃ msg,
    (handleIncomingStatus normalizeText trim characterStore m st r).1.1
      = Return (Some (ReplyManager msg)) ∧
    (msg = MsgWaiting ∨ ∃ log, msg = MsgRound log).
Proof.
  intros Hkeys. simpl. intros Hactor Hcmd Hin.
  destruct (handler_mentionable sts r0 actor Hkeys Hin) as [Hne _].
  destruct (handler_reachable sts r0 Hkeys) as [Hinv Hh].
  pose proof (handler_participant _ actor Hinv Hh Hin) as Hreg.
  destruct (submitAction_accepts_inv _ actor action r Hinv Hin
              (parseCommand_valid _ _ _ Hcmd)) as (msg & Hsub & Hmsg).
  exists msg. split; [|done].
  unfold handleIncomingStatus. fold (status_text st).
  rewrite Hactor, Hcmd.
  rewrite bool_decide_eq_false_2 by done.
  rewrite (bool_decide_eq_true_2 _ Hreg). simpl.
  destruct (submitAction _ actor action r) as [[res m1] r1]. simpl in *.
  by rewrite Hsub.
Qed.

(** X24.  The bot never fights: in every registry a stream of statuses
    leads to from the empty one (the store holding every template under its
    own identity), no identity of the participant map is the empty string or
    the bot's own account, and none is the identity of both sides of its
    battle. *)
Theorem handler_never_enrols_bot (sts : list Status) (r0 : RNG) (acct : string) :
  store_keys_ok characterStore →
  let m := (handle_all normalizeText trim characterStore
              BattleManager_new sts r0).1 in
  is_Some (battleIdByPlayer m !! acct) →
  acct ≠ "" ∧ acct ≠ BOT_ACCT ∧
  ∃ k b, battleIdByPlayer m !! acct = Some k ∧ battlesById m !! k = Some b ∧
         (acct = id (playerA b) ∨ acct = id (playerB b)) ∧
         id (playerA b) ≠ id (playerB b).
Proof.
  intros Hkeys. simpl. intros Hin.
  destruct (handler_mentionable sts r0 acct Hkeys Hin) as [H1 H2].
  split; [done|]. split; [done|].
  destruct (handler_reachable sts r0 Hkeys) as [[Hp _] Hh].
  destruct Hin as [k Hk]. destruct (Hp _ _ Hk) as (b & Hb & Hid).
  exists k, b. repeat split; try done. by destruct (Hh _ _ Hb).
Qed.

(** X25.  [buildCharacterFromAcct] gives no character exactly for an
    account the store does not hold.  A character it gives (the store holding
    every template under its own identity) has the account as identity, the
    statistics of its template, full hp, and a name that is not empty as
    long as the template's is not. *)
Theorem buildCharacterFromAcct_snapshot (acct : string) (dn : option string) :
  store_keys_ok characterStore →
  (buildCharacterFromAcct trim characterStore acct dn = None ↔
   characterStore !! acct = None) ∧
  ∀ c, buildCharacterFromAcct trim characterStore acct dn = Some c →
       id c = acct ∧ hp c = maxHp c ∧ from_store characterStore c ∧
       ∀ base, characterStore !! acct = Some base →
               baseName base ≠ "" → name c ≠ "".
Proof.
  intros Hkeys. split.
  - unfold buildCharacterFromAcct. by destruct (characterStore !! acct).
  - intros c Hc.
    destruct (buildCharacterFromAcct_from_store _ _ _ Hkeys Hc) as (? & ? & ?).
    repeat split; try done.
    intros base Hb Hname. revert Hc. unfold buildCharacterFromAcct.
    rewrite Hb. intros [= <-]. simpl. unfold pickDisplayName.
    destruct (trim <$> dn) as [d|]; [|done]. by case_bool_decide.
Qed.

Lemma extractMentionedAccts_length st :
  (length (extractMentionedAccts trim st) ≤ length (default [] (mentions st)))%nat.
Proof.
  unfold extractMentionedAccts. rewrite !length_fmap.
  induction (default [] (mentions st)) as [|a l IH]; [done|].
  cbn [omap list_omap]. destruct a as [a|]; [|simpl; lia].
  case_bool_decide; simpl; lia.
Qed.

(** X26.  A start command needs two mentions: when the status has fewer
    than two mentioned accounts (or no list of mentions at all), a status
    with a usable actor whose text asks for a battle is answered with the
    two-mentions notice, and registry and random source stay as they
    were. *)
Theorem handler_start_needs_two (m : BattleManager) (st : Status)
    (actor : string) (r : RNG) :
  strip_at <$> account_acct st = Some actor → actor ≠ "" →
  parseCommand normalizeText (status_text st) = CmdStart →
  (length (default [] (mentions st)) < 2)%nat →
  handleIncomingStatus normalizeText trim characterStore m st r =
    (Return (Some ReplyTwoMentions), m, r).
Proof.
  intros Hactor Hne Hcmd Hlen.
  unfold handleIncomingStatus. fold (status_text st).
  rewrite Hactor, Hcmd. rewrite bool_decide_eq_false_2 by done.
  pose proof (extractMentionedAccts_length st) as H1.
  pose proof (length_filter (λ a : string, a ≠ "" ∧ a ≠ BOT_ACCT)
                (extractMentionedAccts trim st)) as H2.
  destruct (filter _ _) as [|acctA [|acctB rest]]; [done|done|].
  simpl in H2. lia.
Qed.

End HandlerProperties.

Lemma loadCharacters_keys_ok : store_keys_ok loadCharacters.
Proof.
  intros k base. unfold loadCharacters.
  destruct (decide (k = "sawa_@mastodon.social")) as [->|H1].
  { rewrite lookup_insert_eq. by intros [= <-]. }
  rewrite lookup_insert_ne by done.
  destruct (decide (k = "sawa_2@mastodon.social")) as [->|H2].
  { rewrite lookup_insert_eq. by intros [= <-]. }
  rewrite lookup_insert_ne by done. by rewrite lookup_empty.
Qed.

Lemma handler_requests_witness :
  store_keys_ok loadCharacters ∧
  handle_all (λ s, s) (λ s, s) loadCharacters BattleManager_new
    [start_status; defend_status] (scripted [] 0%Q) =
    serve_all BattleManager_new
      (omap (request_of (λ s, s) (λ s, s) loadCharacters)
            [start_status; defend_status]) (scripted [] 0%Q) ∧
  Forall (good_request loadCharacters)
    (omap (request_of (λ s, s) (λ s, s) loadCharacters)
          [start_status; defend_status]).
Proof.
  split; [exact loadCharacters_keys_ok|].
  exact (handler_requests (λ s, s) (λ s, s) loadCharacters BattleManager_new
           [start_status; defend_status] (scripted [] 0%Q)
           loadCharacters_keys_ok).
Defined.

Lemma handler_battles_witness :
  store_keys_ok loadCharacters ∧
  let m := (handle_all (λ s, s) (λ s, s) loadCharacters BattleManager_new
              [start_status; defend_status] (scripted [] 0%Q)).1 in
  (∀ k b, battlesById m !! k = Some b →
     id (playerA b) ≠ id (playerB b) ∧
     from_store loadCharacters (playerA b) ∧
     from_store loadCharacters (playerB b)) ∧
  (∀ acct, is_Some (battleIdByPlayer m !! acct) →
           is_Some (loadCharacters !! acct)).
Proof.
  split; [exact loadCharacters_keys_ok|].
  exact (handler_battles (λ s, s) (λ s, s) loadCharacters
           [start_status; defend_status] (scripted [] 0%Q)
           loadCharacters_keys_ok).
Defined.

Lemma handler_action_accepted_witness :
  is_Some (battleIdByPlayer
             (handle_all (λ s, s) (λ s, s) loadCharacters BattleManager_new
                [start_status] (scripted [] 0%Q)).1
           !! "sawa_2@mastodon.social") ∧
  ∃ msg,
    (handleIncomingStatus (λ s, s) (λ s, s) loadCharacters
       (handle_all (λ s, s) (λ s, s) loadCharacters BattleManager_new
          [start_status] (scripted [] 0%Q)).1
       defend_status (scripted [] 0%Q)).1.1
      = Return (Some (ReplyManager msg)) ∧
    (msg = MsgWaiting ∨ ∃ log, msg = MsgRound log).
Proof.
  assert (is_Some (battleIdByPlayer
             (handle_all (λ s, s) (λ s, s) loadCharacters BattleManager_new
                [start_status] (scripted [] 0%Q)).1
           !! "sawa_2@mastodon.social")) as Hin by compute_done.
  split; [exact Hin|].
  apply (handler_action_accepted (λ s, s) (λ s, s) loadCharacters
           [start_status] (scripted [] 0%Q) defend_status
           "sawa_2@mastodon.social" "defend" (scripted [] 0%Q)).
  - exact loadCharacters_keys_ok.
  - reflexivity.
  - vm_compute. exact eq_refl.
  - exact Hin.
Defined.

Lemma handler_never_enrols_bot_witness :
  let m := (handle_all (λ s, s) (λ s, s) loadCharacters BattleManager_new
              [start_status] (scripted [] 0%Q)).1 in
  is_Some (battleIdByPlayer m !! "sawa_@mastodon.social") ∧
  "sawa_@mastodon.social" ≠ "" ∧ "sawa_@mastodon.social" ≠ BOT_ACCT ∧
  ∃ k b, battleIdByPlayer m !! "sawa_@mastodon.social" = Some k ∧
         battlesById m !! k = Some b ∧
         ("sawa_@mastodon.social" = id (playerA b) ∨
          "sawa_@mastodon.social" = id (playerB b)) ∧
         id (playerA b) ≠ id (playerB b).
Proof.
  assert (is_Some (battleIdByPlayer
             (handle_all (λ s, s) (λ s, s) loadCharacters BattleManager_new
                [start_status] (scripted [] 0%Q)).1
           !! "sawa_@mastodon.social")) as Hin by compute_done.
  split; [exact Hin|].
  exact (handler_never_enrols_bot (λ s, s) (λ s, s) loadCharacters
           [start_status] (scripted [] 0%Q) "sawa_@mastodon.social"
           loadCharacters_keys_ok Hin).
Defined.

Lemma buildCharacterFromAcct_snapshot_witness :
  store_keys_ok loadCharacters ∧
  (buildCharacterFromAcct (λ s, s) loadCharacters "sawa_@mastodon.social" None
     = None ↔ loadCharacters !! "sawa_@mastodon.social" = None) ∧
  ∀ c, buildCharacterFromAcct (λ s, s) loadCharacters
         "sawa_@mastodon.social" None = Some c →
       id c = "sawa_@mastodon.social" ∧ hp c = maxHp c ∧
       from_store loadCharacters c ∧
       ∀ base, loadCharacters !! "sawa_@mastodon.social" = Some base →
               baseName base ≠ "" → name c ≠ "".
Proof.
  split; [exact loadCharacters_keys_ok|].
  exact (buildCharacterFromAcct_snapshot (λ s, s) loadCharacters
           "sawa_@mastodon.social" None loadCharacters_keys_ok).
Defined.

Lemma handler_start_needs_two_witness :
  handleIncomingStatus (λ s, s) (λ s, s) loadCharacters BattleManager_new
    {| account_acct := Some "@host@mastodon.social";
       account_display_name := None;
       content := Some "전투 @sawa_2";
       text := None;
       mentions := Some [Some "sawa_2@mastodon.social"] |} (scripted [] 0%Q) =
    (Return (Some ReplyTwoMentions), BattleManager_new, scripted [] 0%Q).
Proof.
  apply (handler_start_needs_two (λ s, s) (λ s, s) loadCharacters
           BattleManager_new _ "host@mastodon.social").
  - reflexivity.
  - done.
  - vm_compute. exact eq_refl.
  - simpl. lia.
Defined.
